(** * The betting ledger of [api/router.go]

    A shallow embedding of the in-memory store of the Go backend (games,
    bets, wallets, the bet-id counter and the admin key) together with its
    operations [placeBet], [settle], [getGame], [listGames] and [addOdds],
    followed by the properties of the ledger.

    Conventions.
    - [int64] values are integers of [Z]; every Go addition and
      subtraction is written with its two's-complement wrap-around
      ([Int64.add], [Int64.sub]).
    - [float64] values are IEEE-754 binary64 numbers, taken from the
      executable specification [SpecFloat] of the standard library
      (precision 53, maximal exponent 1024, round to nearest even).
    - The three Go maps are finite maps ([gmap]) from [int64] keys to
      records.  The store only ever holds one pointer per key and never
      shares a pointer between keys, so a record stored under a key stands
      for the object the Go pointer refers to; mutation through the pointer
      is an update of the map entry.
    - [GameStatus] has the two values the code assigns, [StatusPre] and
      [StatusDone]; a [Selection] comes from a request body and is any
      string.
    - The mutex makes every operation run alone; an operation is a function
      from the store before the call to the store after it and the value
      returned. *)

From Stdlib Require Import ZArith String List Lia SpecFloat.
From Stdlib Require Import QArith Qround Qpower Lqa.
From Stdlib Require Import Ascii.
From stdpp Require Import gmap strings list fin_maps.

Local Open Scope string_scope.
Local Open Scope Z_scope.

(** ** Machine integers *)

Module Int64.

Definition min_int : Z := - 2 ^ 63.
Definition max_int : Z := 2 ^ 63 - 1.

(** The value a Go [int64] holds after an arithmetic result [z]. *)
Definition wrap (z : Z) : Z := (z + 2 ^ 63) mod 2 ^ 64 - 2 ^ 63.

Definition in_range (z : Z) : Prop := min_int <= z <= max_int.

Definition add (a b : Z) : Z := wrap (a + b).
Definition sub (a b : Z) : Z := wrap (a - b).

End Int64.

(** ** Binary64 floating point *)

Module F64.

Definition prec : Z := 53.
Definition emax : Z := 1024.

Definition zero : spec_float := S754_zero false.

(** Go's [float64(x)] for an [int64] [x]: the nearest binary64 number. *)
Definition of_int64 (z : Z) : spec_float := binary_normalize prec emax z 0 false.

Definition div (x y : spec_float) : spec_float := SFdiv prec emax x y.
Definition mul (x y : spec_float) : spec_float := SFmul prec emax x y.
Definition add (x y : spec_float) : spec_float := SFadd prec emax x y.
Definition leb (x y : spec_float) : bool := SFleb x y.

(** The integer part of a finite number, rounded toward zero. *)
Definition trunc (x : spec_float) : option Z :=
  match x with
  | S754_zero _ => Some 0
  | S754_finite s m e =>
      let a := if 0 <=? e then Z.pos m * 2 ^ e else Z.pos m / 2 ^ (- e) in
      Some (if s then - a else a)
  | S754_infinity _ | S754_nan => None
  end.

(** The rational number a finite binary64 number stands for; 0 for the
    others. *)
Definition value (x : spec_float) : Q :=
  match x with
  | S754_finite s m e =>
      ((if s then -1 else 1) * inject_Z (Z.pos m) * 2 ^ e)%Q
  | _ => 0%Q
  end.

Definition is_finite (x : spec_float) : bool :=
  match x with
  | S754_zero _ | S754_finite _ _ _ => true
  | S754_infinity _ | S754_nan => false
  end.

(** Go's [int64(x)] for a [float64] [x].  The language leaves the result
    open when the integer part does not fit; the value below is the one
    the amd64 conversion instruction produces (the smallest [int64]). *)
Definition to_int64 (x : spec_float) : Z :=
  match trunc x with
  | Some z =>
      if (Int64.min_int <=? z) && (z <=? Int64.max_int) then z
      else Int64.min_int
  | None => Int64.min_int
  end.

End F64.

(** ** Data model *)

Inductive GameStatus : Type :=
| StatusPre   (* "PreGame" *)
| StatusDone. (* "Settled" *)

Definition GameStatus_eqb (a b : GameStatus) : bool :=
  match a, b with
  | StatusPre, StatusPre | StatusDone, StatusDone => true
  | _, _ => false
  end.

(** A selection arrives as a JSON string: any string can occur. *)
Definition Selection : Type := string.

Definition SelHome : Selection := "home".
Definition SelAway : Selection := "away".
Definition SelDraw : Selection := "draw".

Record Game : Type := mkGame {
  Game_ID : Z;
  Game_Sport : string;
  Game_Home : string;
  Game_Away : string;
  Game_StartTime : string;
  Game_Status : GameStatus;
  Game_Result : option Selection;
  Game_HomePool : Z;
  Game_AwayPool : Z;
  Game_DrawPool : Z;
  Game_HomeOdds : spec_float;
  Game_AwayOdds : spec_float;
  Game_DrawOdds : spec_float
}.

Record Bet : Type := mkBet {
  Bet_ID : Z;
  Bet_UserID : Z;
  Bet_GameID : Z;
  Bet_Selection : Selection;
  Bet_Stake : Z;
  Bet_PlacedAt : string
}.

Record Wallet : Type := mkWallet {
  Wallet_UserID : Z;
  Wallet_Balance : Z
}.

Record store : Type := mkStore {
  games : gmap Z Game;
  bets : gmap Z Bet;
  wallets : gmap Z Wallet;
  nextBet : Z;
  adminKey : string
}.

(** The errors of the ledger, named after the messages of the code. *)
Inductive error : Type :=
| user_not_found
| bad_stake
| insufficient_balance
| game_not_found
| game_settled
| bad_selection
| forbidden
| already_settled.

#[global] Instance error_eq_dec : EqDecision error.
Proof. solve_decision. Defined.

Inductive answer (A : Type) : Type :=
| Ok (a : A)
| Err (e : error).
Arguments Ok {A} a.
Arguments Err {A} e.

(** An operation either returns, leaving a store behind, or stops with a
    run-time panic (a nil pointer dereference). *)
Inductive outcome (A : Type) : Type :=
| Returns (s : store) (r : A)
| Panics.
Arguments Returns {A} s r.
Arguments Panics {A}.

(** *** Field updates *)

Definition set_Balance (w : Wallet) (b : Z) : Wallet :=
  mkWallet (Wallet_UserID w) b.

Definition set_HomePool (g : Game) (p : Z) : Game :=
  mkGame (Game_ID g) (Game_Sport g) (Game_Home g) (Game_Away g)
    (Game_StartTime g) (Game_Status g) (Game_Result g)
    p (Game_AwayPool g) (Game_DrawPool g)
    (Game_HomeOdds g) (Game_AwayOdds g) (Game_DrawOdds g).

Definition set_AwayPool (g : Game) (p : Z) : Game :=
  mkGame (Game_ID g) (Game_Sport g) (Game_Home g) (Game_Away g)
    (Game_StartTime g) (Game_Status g) (Game_Result g)
    (Game_HomePool g) p (Game_DrawPool g)
    (Game_HomeOdds g) (Game_AwayOdds g) (Game_DrawOdds g).

Definition set_DrawPool (g : Game) (p : Z) : Game :=
  mkGame (Game_ID g) (Game_Sport g) (Game_Home g) (Game_Away g)
    (Game_StartTime g) (Game_Status g) (Game_Result g)
    (Game_HomePool g) (Game_AwayPool g) p
    (Game_HomeOdds g) (Game_AwayOdds g) (Game_DrawOdds g).

Definition set_Settled (g : Game) (r : Selection) : Game :=
  mkGame (Game_ID g) (Game_Sport g) (Game_Home g) (Game_Away g)
    (Game_StartTime g) StatusDone (Some r)
    (Game_HomePool g) (Game_AwayPool g) (Game_DrawPool g)
    (Game_HomeOdds g) (Game_AwayOdds g) (Game_DrawOdds g).

Definition set_Odds (g : Game) (h a d : spec_float) : Game :=
  mkGame (Game_ID g) (Game_Sport g) (Game_Home g) (Game_Away g)
    (Game_StartTime g) (Game_Status g) (Game_Result g)
    (Game_HomePool g) (Game_AwayPool g) (Game_DrawPool g) h a d.

Definition set_games (s : store) (gs : gmap Z Game) : store :=
  mkStore gs (bets s) (wallets s) (nextBet s) (adminKey s).

Definition set_wallets (s : store) (ws : gmap Z Wallet) : store :=
  mkStore (games s) (bets s) ws (nextBet s) (adminKey s).

(** ** The store at start-up *)

(** [newStore]: one wallet and three seeded games.  The start times are
    read from the clock; they are the three arguments. *)
Definition newStore (t101 t102 t103 : string) : store :=
  mkStore
    (<[103 := mkGame 103 "Volleyball" "Cat Food" "Kiss My Ace" t103
                StatusPre None 150 120 30 F64.zero F64.zero F64.zero]>
     (<[102 := mkGame 102 "Soccer" "Alumni" "Dillon" t102
                StatusPre None 150 120 30 F64.zero F64.zero F64.zero]>
      (<[101 := mkGame 101 "Flag Football" "Welsh Fam Whirls" "Lewis Chicks"
                 t101 StatusPre None 100 100 0
                 F64.zero F64.zero F64.zero]> ∅)))
    ∅
    (<[1 := mkWallet 1 1000]> ∅)
    1
    "letmein".

(** ** Odds *)

Definition addOdds (g : Game) : Game :=
  let total :=
    F64.of_int64
      (Int64.add (Int64.add (Game_HomePool g) (Game_AwayPool g))
                 (Game_DrawPool g)) in
  if F64.leb total F64.zero then set_Odds g F64.zero F64.zero F64.zero
  else
    set_Odds g
      (F64.div (F64.of_int64 (Game_HomePool g)) total)
      (F64.div (F64.of_int64 (Game_AwayPool g)) total)
      (F64.div (F64.of_int64 (Game_DrawPool g)) total).

(** ** Read operations *)

(** [listGames]: a copy of every game with its odds; Go ranges over the
    map in no fixed order, the list below is in the order of the map's
    enumeration. *)
Definition listGames (s : store) : list Game :=
  (fun kg : Z * Game => addOdds (snd kg)) <$> map_to_list (games s).

Definition getGame (id : Z) (s : store) : option Game :=
  addOdds <$> games s !! id.

(** ** placeBet *)

(** The [switch] on the selection: the pool it names is raised by the
    stake; [None] is the [default] branch. *)
Definition add_to_pool (sel : Selection) (stake : Z) (g : Game) : option Game :=
  if String.eqb sel SelHome then
    Some (set_HomePool g (Int64.add (Game_HomePool g) stake))
  else if String.eqb sel SelAway then
    Some (set_AwayPool g (Int64.add (Game_AwayPool g) stake))
  else if String.eqb sel SelDraw then
    Some (set_DrawPool g (Int64.add (Game_DrawPool g) stake))
  else None.

(** [placeBet]; [now] is the clock reading stored in [PlacedAt].  The
    wallet is debited before the [switch], so the store returned with
    [bad_selection] carries the debit. *)
Definition placeBet (now : string) (userID gameID : Z) (sel : Selection)
    (stake : Z) (s : store) : store * answer (Bet * Wallet * Game) :=
  match wallets s !! userID with
  | None => (s, Err user_not_found)
  | Some w =>
    if stake <=? 0 then (s, Err bad_stake)
    else if Wallet_Balance w <? stake then (s, Err insufficient_balance)
    else
      match games s !! gameID with
      | None => (s, Err game_not_found)
      | Some g =>
        if GameStatus_eqb (Game_Status g) StatusDone then (s, Err game_settled)
        else
          let w' := set_Balance w (Int64.sub (Wallet_Balance w) stake) in
          let s1 := set_wallets s (<[userID := w']> (wallets s)) in
          match add_to_pool sel stake g with
          | None => (s1, Err bad_selection)
          | Some g' =>
            let b := mkBet (nextBet s) userID gameID sel stake now in
            (mkStore (<[gameID := g']> (games s1))
                     (<[Bet_ID b := b]> (bets s1))
                     (wallets s1)
                     (Int64.add (nextBet s1) 1)
                     (adminKey s1),
             Ok (b, w', g'))
          end
      end
  end.

(** ** settle *)

(** The pool the result names; a result that is none of the three
    selections leaves [winnerPool] at its zero value. *)
Definition winner_pool (result : Selection) (g : Game) : Z :=
  if String.eqb result SelHome then Game_HomePool g
  else if String.eqb result SelAway then Game_AwayPool g
  else if String.eqb result SelDraw then Game_DrawPool g
  else 0.

Definition pool_total (g : Game) : Z :=
  Int64.add (Int64.add (Game_HomePool g) (Game_AwayPool g)) (Game_DrawPool g).

(** [int64(float64(stake) / float64(winnerPool) * float64(total))] *)
Definition payout (stake winnerPool total : Z) : Z :=
  let share := F64.div (F64.of_int64 stake) (F64.of_int64 winnerPool) in
  F64.to_int64 (F64.mul share (F64.of_int64 total)).

(** Is the bet one the payout loop pays? *)
Definition wins (gameID : Z) (result : Selection) (b : Bet) : bool :=
  (Bet_GameID b =? gameID) && String.eqb (Bet_Selection b) result.

(** One round of the payout loop.  [s.wallets[b.UserID]] yields nil for a
    user without wallet and the assignment to its balance panics. *)
Definition pay_bet (gameID : Z) (result : Selection) (winnerPool total : Z)
    (b : Bet) (ws : gmap Z Wallet) : option (gmap Z Wallet) :=
  if wins gameID result b then
    match ws !! Bet_UserID b with
    | None => None
    | Some w =>
      Some (<[Bet_UserID b :=
                set_Balance w
                  (Int64.add (Wallet_Balance w)
                     (payout (Bet_Stake b) winnerPool total))]> ws)
    end
  else Some ws.

(** The payout loop over the bets in a given order. *)
Definition pay_bets (gameID : Z) (result : Selection) (winnerPool total : Z)
    (bs : list (Z * Bet)) (ws : gmap Z Wallet) : option (gmap Z Wallet) :=
  foldr (fun kb acc => acc ≫= pay_bet gameID result winnerPool total (snd kb))
        (Some ws) bs.

(** [settle].  Go ranges over [s.bets] in no fixed order; the loop below
    follows the enumeration of the map, and [pay_bets_Permutation] shows
    that the order does not matter. *)
Definition settle (key : string) (gameID : Z) (result : Selection)
    (s : store) : outcome (answer Game) :=
  if negb (String.eqb key (adminKey s)) then Returns s (Err forbidden)
  else
    match games s !! gameID with
    | None => Returns s (Err game_not_found)
    | Some g =>
      if GameStatus_eqb (Game_Status g) StatusDone
      then Returns s (Err already_settled)
      else
        let g' := set_Settled g result in
        let s1 := set_games s (<[gameID := g']> (games s)) in
        let total := pool_total g' in
        let winnerPool := winner_pool result g' in
        if winnerPool =? 0 then Returns s1 (Ok g')
        else
          match pay_bets gameID result winnerPool total
                  (map_to_list (bets s1)) (wallets s1) with
          | None => Panics
          | Some ws => Returns (set_wallets s1 ws) (Ok g')
          end
    end.

(** ** Requests *)

(** The two mutating calls the HTTP layer makes on the store. *)
Inductive request : Type :=
| ReqPlaceBet (now : string) (userID gameID : Z) (sel : Selection) (stake : Z)
| ReqSettle (key : string) (gameID : Z) (res : Selection).

Inductive response : Type :=
| RespBet (r : answer (Bet * Wallet * Game))
| RespSettle (r : answer Game).

Definition handle (rq : request) (s : store) : outcome response :=
  match rq with
  | ReqPlaceBet now u g sel stake =>
      let '(s', r) := placeBet now u g sel stake s in Returns s' (RespBet r)
  | ReqSettle key g res =>
      match settle key g res s with
      | Returns s' r => Returns s' (RespSettle r)
      | Panics => Panics
      end
  end.

(** A server run: the requests are served one after the other. *)
Fixpoint serve (rqs : list request) (s : store) : outcome (list response) :=
  match rqs with
  | [] => Returns s []
  | rq :: rest =>
      match handle rq s with
      | Returns s1 r =>
          match serve rest s1 with
          | Returns s2 rs => Returns s2 (r :: rs)
          | Panics => Panics
          end
      | Panics => Panics
      end
  end.

(** ** The specification's reading of the operations *)

(** The six preconditions of PlaceBet in the words of the specification,
    one per error.  A user without wallet has no balance that covers the
    stake, and a game that does not exist is not in [StatusPre]. *)
Definition violated (userID gameID : Z) (sel : Selection) (stake : Z)
    (s : store) (e : error) : bool :=
  match e with
  | user_not_found =>
      match wallets s !! userID with Some _ => false | None => true end
  | bad_stake => negb (0 <? stake)
  | insufficient_balance =>
      match wallets s !! userID with
      | Some w => negb (stake <=? Wallet_Balance w)
      | None => true
      end
  | game_not_found =>
      match games s !! gameID with Some _ => false | None => true end
  | game_settled =>
      match games s !! gameID with
      | Some g => negb (GameStatus_eqb (Game_Status g) StatusPre)
      | None => true
      end
  | bad_selection =>
      negb (String.eqb sel SelHome || String.eqb sel SelAway
            || String.eqb sel SelDraw)
  | forbidden | already_settled => false
  end.

(** The order in which the specification checks them. *)
Definition placeBet_checks : list error :=
  [user_not_found; bad_stake; insufficient_balance; game_not_found;
   game_settled; bad_selection].

Definition first_violation (userID gameID : Z) (sel : Selection) (stake : Z)
    (s : store) : option error :=
  List.find (violated userID gameID sel stake s) placeBet_checks.

(** The payout of the specification, [floor ((stake / winner_pool) * total)],
    in exact rational arithmetic. *)
Definition exact_payout (stake winnerPool total : Z) : Z :=
  Qfloor ((inject_Z stake / inject_Z winnerPool) * inject_Z total)%Q.

(** ** Vocabulary of the properties *)

Definition valid_selection (sel : Selection) : Prop :=
  sel = SelHome \/ sel = SelAway \/ sel = SelDraw.

(** What the payout loop owes user [u]: the sum of the payouts of the
    user's winning bets among [bs]. *)
Definition winnings (gameID : Z) (result : Selection) (winnerPool total : Z)
    (u : Z) (bs : list (Z * Bet)) : Z :=
  foldr (fun kb acc =>
           if wins gameID result (snd kb) && (Bet_UserID (snd kb) =? u)
           then payout (Bet_Stake (snd kb)) winnerPool total + acc
           else acc)
        0 bs.

(** Every recorded bet names a user who has a wallet. *)
Definition bets_have_wallets (s : store) : Prop :=
  forall id b, bets s !! id = Some b -> is_Some (wallets s !! Bet_UserID b).

(** The stores the server can be in: the store at start-up and every
    store a request leaves behind. *)
Inductive reachable : store -> Prop :=
| reachable_newStore t101 t102 t103 : reachable (newStore t101 t102 t103)
| reachable_handle rq s s' r :
    reachable s -> handle rq s = Returns s' r -> reachable s'.






(** ** The HTTP layer *)

(** *** Strings and numbers of the Go library, as the handlers use them *)

(** [strings.HasPrefix(s, p)] and [strings.TrimPrefix(s, p)]. *)
Definition HasPrefix (s p : string) : bool := String.prefix p s.

Fixpoint drop_bytes (n : nat) (s : string) : string :=
  match n, s with
  | O, _ => s
  | S n', String _ rest => drop_bytes n' rest
  | S _, EmptyString => EmptyString
  end.

Definition TrimPrefix (s p : string) : string :=
  if HasPrefix s p then drop_bytes (String.length p) s else s.

(** [strings.Split(s, "/")]: the segments between the slashes; never an
    empty list. *)
Fixpoint SplitSlash (s : string) : list string :=
  match s with
  | EmptyString => [EmptyString]
  | String c rest =>
      if Ascii.eqb c "/"%char then EmptyString :: SplitSlash rest
      else match SplitSlash rest with
           | seg :: more => String c seg :: more
           | [] => [String c EmptyString]
           end
  end.

Definition digit_of (c : ascii) : option Z :=
  let n := Z.of_N (N_of_ascii c) in
  if (48 <=? n) && (n <=? 57) then Some (n - 48) else None.

Fixpoint parse_digits (s : string) (acc : Z) : option Z :=
  match s with
  | EmptyString => Some acc
  | String c rest =>
      match digit_of c with
      | Some d => parse_digits rest (10 * acc + d)
      | None => None
      end
  end.

(** [strconv.ParseInt(s, 10, 64)]: the value, or [None] where the
    library returns an error (syntax or range; the handler only tests
    [err != nil]). *)
Definition ParseInt (s : string) : option Z :=
  match s with
  | EmptyString => None
  | String c rest =>
      let neg := Ascii.eqb c "-"%char in
      let digits := if Ascii.eqb c "+"%char || neg then rest else s in
      match digits with
      | EmptyString => None
      | _ =>
        match parse_digits digits 0 with
        | None => None
        | Some un =>
            if neg then (if 2 ^ 63 <? un then None else Some (- un))
            else (if 2 ^ 63 <=? un then None else Some un)
        end
      end
  end.

(** *** Requests and responses *)

(** The body of a bet request after [json.Decode]. *)
Record BetBody : Type := mkBetBody {
  Body_UserID : Z;
  Body_Selection : Selection;
  Body_Stake : Z
}.

(** What a handler reads of a request: the method, the [path] query
    parameter, the two headers, the clock, and what [json.Decode] makes
    of the body for the struct of the bets route and of the settle route
    ([None]: the decoder fails). *)
Record http_request : Type := mkRequest {
  rq_Method : string;
  rq_path : string;
  rq_Origin : string;
  rq_AdminKey : string;
  rq_now : string;
  rq_bet : option BetBody;
  rq_settle : option Selection
}.

(** The value handed to [writeJSON]. *)
Inductive json_value : Type :=
| JGames (gs : list Game)
| JGame (g : Game)
| JBet (b : Bet) (w : Wallet) (g : Game).

(** The call that writes the response. *)
Inductive reply : Type :=
| WriteJSON (code : Z) (v : json_value)  (* writeJSON(w, code, v) *)
| HttpError (msg : string) (code : Z)    (* http.Error(w, msg, code) *)
| NotFound                               (* http.NotFound(w, r) *)
| NoContent.                             (* w.WriteHeader(204) *)

Record http_response : Type := mkResponse {
  rs_AllowOrigin : string;  (* Access-Control-Allow-Origin *)
  rs_reply : reply
}.

Definition status_code (r : reply) : Z :=
  match r with
  | WriteJSON code _ => code
  | HttpError _ code => code
  | NotFound => 404
  | NoContent => 204
  end.

(** [err.Error()] *)
Definition error_message (e : error) : string :=
  match e with
  | user_not_found => "user_not_found"
  | bad_stake => "bad_stake"
  | insufficient_balance => "insufficient_balance"
  | game_not_found => "game_not_found"
  | game_settled => "game_settled"
  | bad_selection => "bad_selection"
  | forbidden => "forbidden"
  | already_settled => "already_settled"
  end.

(** *** Handlers *)

Definition handleGames (method : string) (s : store) : reply :=
  if String.eqb method "GET" then WriteJSON 200 (JGames (listGames s))
  else HttpError "method_not_allowed" 405.

(** [handleGameByID]; [urlPath] is [r.URL.Path]. *)
Definition handleGameByID (rq : http_request) (urlPath : string)
    (s : store) : outcome reply :=
  let parts := SplitSlash (TrimPrefix urlPath "/api/games/") in
  match parts with
  | [] => Returns s NotFound
  | part0 :: others =>
    if String.eqb part0 "" then Returns s NotFound
    else
      match ParseInt part0 with
      | None => Returns s (HttpError "bad_id" 400)
      | Some id =>
        if (length parts =? 1)%nat && String.eqb (rq_Method rq) "GET" then
          match getGame id s with
          | None => Returns s NotFound
          | Some g => Returns s (WriteJSON 200 (JGame g))
          end
        else if (length parts =? 2)%nat
                && String.eqb (nth 1 parts "") "bets"
                && String.eqb (rq_Method rq) "POST" then
          match rq_bet rq with
          | None => Returns s (HttpError "bad_json" 400)
          | Some body =>
            match placeBet (rq_now rq) (Body_UserID body) id
                    (Body_Selection body) (Body_Stake body) s with
            | (s', Err e) => Returns s' (HttpError (error_message e) 400)
            | (s', Ok (b, wlt, g)) =>
                Returns s' (WriteJSON 200 (JBet b wlt (addOdds g)))
            end
          end
        else if (length parts =? 2)%nat
                && String.eqb (nth 1 parts "") "settle"
                && String.eqb (rq_Method rq) "POST" then
          match rq_settle rq with
          | None => Returns s (HttpError "bad_json" 400)
          | Some result =>
            match settle (rq_AdminKey rq) id result s with
            | Returns s' (Err e) =>
                Returns s' (HttpError (error_message e) 403)
            | Returns s' (Ok g) =>
                Returns s' (WriteJSON 200 (JGame (addOdds g)))
            | Panics => Panics
            end
          end
        else Returns s (HttpError "not_found" 404)
      end
  end.

(** The function [allowCORS] wraps: the dispatch on the path. *)
Definition dispatch (rq : http_request) (s : store) : outcome reply :=
  let rel := TrimPrefix (rq_path rq) "/" in
  if String.eqb (rq_Method rq) "GET"
     && (String.eqb rel "games" || String.eqb rel "games/") then
    Returns s (handleGames (rq_Method rq) s)
  else if HasPrefix rel "games/" then
    let rest := TrimPrefix rel "games/" in
    handleGameByID rq ("/api/games/" ++ rest) s
  else Returns s NotFound.

(** [Handler]: [allowCORS] around the dispatch. *)
Definition Handler (rq : http_request) (s : store) : outcome http_response :=
  let origin :=
    if String.eqb (rq_Origin rq) "" then "*" else rq_Origin rq in
  if String.eqb (rq_Method rq) "OPTIONS" then
    Returns s (mkResponse origin NoContent)
  else
    match dispatch rq s with
    | Returns s' r => Returns s' (mkResponse origin r)
    | Panics => Panics
    end.

(** ** Vocabulary of the further properties *)

(** What no operation changes of a game. *)
Definition same_identity (g g' : Game) : Prop :=
  Game_ID g' = Game_ID g /\ Game_Sport g' = Game_Sport g /\
  Game_Home g' = Game_Home g /\ Game_Away g' = Game_Away g /\
  Game_StartTime g' = Game_StartTime g.

(** A stored game: filed under its id, with a result exactly when it is
    settled, and with no odds. *)
Definition game_ok (id : Z) (g : Game) : Prop :=
  Game_ID g = id /\
  (Game_Result g = None <-> Game_Status g = StatusPre) /\
  Game_HomeOdds g = F64.zero /\ Game_AwayOdds g = F64.zero /\
  Game_DrawOdds g = F64.zero.

(** A recorded bet: filed under its id, with a positive stake, one of the
    three selections and an existing game. *)
Definition bet_ok (s : store) (id : Z) (b : Bet) : Prop :=
  Bet_ID b = id /\ 0 < Bet_Stake b /\ valid_selection (Bet_Selection b) /\
  is_Some (games s !! Bet_GameID b).

(** No balance is negative and every balance is an [int64]. *)
Definition balances_ok (s : store) : Prop :=
  forall u w, wallets s !! u = Some w ->
    0 <= Wallet_Balance w <= Int64.max_int.

(** No byte of the string is a slash. *)
Fixpoint no_slash (str : string) : bool :=
  match str with
  | EmptyString => true
  | String c rest => negb (Ascii.eqb c "/"%char) && no_slash rest
  end.

(** The relative distance of two neighbouring binary64 numbers, [2^-52],
    and the tolerance on the sum of the three odds, [2^-50]. *)
Definition rel_ulp : Q := 1 # 4503599627370496.
Definition odds_tolerance : Q := 1 # 1125899906842624.

(** * Properties *)

(** ** Machine integers *)

Lemma wrap_in_range z : Int64.in_range z -> Int64.wrap z = z.
Proof.
  unfold Int64.in_range, Int64.wrap, Int64.min_int, Int64.max_int.
  intros H. rewrite Z.mod_small; lia.
Qed.


Lemma wrap_add_l a b : Int64.wrap (Int64.wrap a + b) = Int64.wrap (a + b).
Proof.
  unfold Int64.wrap.
  replace ((a + 2 ^ 63) mod 2 ^ 64 - 2 ^ 63 + b + 2 ^ 63)
    with ((a + 2 ^ 63) mod 2 ^ 64 + b) by lia.
  rewrite Zplus_mod_idemp_l. f_equal. f_equal. lia.
Qed.

Lemma add_assoc_wrap a b c :
  Int64.add (Int64.add a b) c = Int64.wrap (a + (b + c)).
Proof. unfold Int64.add. rewrite wrap_add_l. f_equal. lia. Qed.

(** ** Binary64 rounding *)

(** The operations of [SpecFloat] round through [binary_round_aux].  For
    positive numbers in the range of the normal numbers its result is
    bracketed here between the mantissa cut to 53 digits and the next
    number, which bounds the relative error of a conversion and of a
    division by [rel_ulp]. *)

Section Binary64.

(** [digits2_pos p] is the number of binary digits of [p]. *)
Lemma digits2_pos_bounds p :
  2 ^ (Z.pos (digits2_pos p) - 1) <= Z.pos p < 2 ^ Z.pos (digits2_pos p).
Proof.
  induction p as [p IH|p IH|]; cbn [digits2_pos].
  - rewrite Pos2Z.inj_succ.
    replace (Z.succ (Z.pos (digits2_pos p)) - 1)
      with (Z.succ (Z.pos (digits2_pos p) - 1)) by lia.
    rewrite !Z.pow_succ_r by lia. lia.
  - rewrite Pos2Z.inj_succ.
    replace (Z.succ (Z.pos (digits2_pos p)) - 1)
      with (Z.succ (Z.pos (digits2_pos p) - 1)) by lia.
    rewrite !Z.pow_succ_r by lia. lia.
  - cbn. lia.
Qed.

(** A number between two consecutive powers of two has that many digits. *)
Lemma digits2_pos_unique p k :
  2 ^ (k - 1) <= Z.pos p < 2 ^ k -> 0 < k -> Z.pos (digits2_pos p) = k.
Proof.
  intros [Hlo Hhi] Hk. pose proof (digits2_pos_bounds p) as [Hl Hh].
  set (d := Z.pos (digits2_pos p)) in *.
  destruct (Z.lt_trichotomy d k) as [Hlt|[->|Hgt]]; [|done|].
  - assert (2 ^ d <= 2 ^ (k - 1)) by (apply Z.pow_le_mono_r; lia). lia.
  - assert (2 ^ k <= 2 ^ (d - 1)) by (apply Z.pow_le_mono_r; lia). lia.
Qed.

(** One step of the right shift halves the mantissa. *)
Lemma shr_1_m mrs : 0 <= shr_m mrs -> shr_m (shr_1 mrs) = shr_m mrs / 2.
Proof.
  destruct mrs as [m r s]. cbn. intros Hm.
  destruct m as [|[p|p|]|p]; cbn; try lia.
  - reflexivity.
  - apply Z.div_unique with 1; lia.
  - apply Z.div_unique with 0; lia.
  - reflexivity.
Qed.

(** [p] steps divide it by [2 ^ p]. *)
Lemma iter_pos_shr_1_m p mrs :
  0 <= shr_m mrs ->
  shr_m (SpecFloat.iter_pos shr_1 p mrs) = shr_m mrs / 2 ^ Z.pos p.
Proof.
  revert mrs. induction p as [p IH|p IH|]; intros mrs Hm; cbn [SpecFloat.iter_pos].
  - assert (0 <= shr_m (shr_1 mrs)) as H1.
    { rewrite shr_1_m by done. apply Z.div_pos; lia. }
    assert (0 <= shr_m (SpecFloat.iter_pos shr_1 p (shr_1 mrs))) as H2.
    { rewrite IH by done. apply Z.div_pos; lia. }
    rewrite IH, IH, shr_1_m by done.
    rewrite !Z.div_div by lia. f_equal.
    rewrite Pos2Z.inj_xI.
    replace (2 * Z.pos p + 1) with (1 + Z.pos p + Z.pos p) by lia.
    rewrite !Z.pow_add_r by lia. change (2 ^ 1) with 2. ring.
  - assert (0 <= shr_m (SpecFloat.iter_pos shr_1 p mrs)) as H2.
    { rewrite IH by done. apply Z.div_pos; lia. }
    rewrite IH, IH by done.
    rewrite !Z.div_div by lia. f_equal.
    replace (Z.pos p~0) with (Z.pos p + Z.pos p) by lia.
    rewrite Z.pow_add_r by lia. done.
  - rewrite shr_1_m by done. done.
Qed.

(** The shift to 53 digits: the exponent grows by the number of digits cut,
    the mantissa is divided accordingly. *)
Lemma shr_fexp_m p ex l :
  let d := Z.pos (digits2_pos p) in
  53 <= d -> -1074 <= ex + d - 53 ->
  exists mrs,
    shr_fexp 53 1024 (Z.pos p) ex l = (mrs, ex + d - 53) /\
    shr_m mrs = Z.pos p / 2 ^ (d - 53).
Proof.
  intros d Hd Hn. unfold shr_fexp, fexp, emin. cbn [Zdigits2]. fold d.
  rewrite Z.max_l by lia.
  replace (d + ex - 53 - ex) with (d - 53) by lia.
  unfold shr. destruct (d - 53) as [|q|q] eqn:E; try lia.
  - eexists. split; [f_equal; lia|].
    rewrite Z.div_1_r. by destruct l as [|[]].
  - eexists. split; [f_equal; lia|].
    rewrite iter_pos_shr_1_m; by destruct l as [|[]].
Qed.

(** Rounding keeps the mantissa or moves to the next one. *)
Lemma round_nearest_even_cases m l :
  round_nearest_even m l = m \/ round_nearest_even m l = m + 1.
Proof.
  unfold round_nearest_even. destruct l as [|[]]; try tauto.
  destruct (Z.even m); tauto.
Qed.

Lemma pow2_split a b : 0 <= a -> 0 <= b -> 2 ^ (a + b) = 2 ^ a * 2 ^ b.
Proof. intros. by apply Z.pow_add_r. Qed.

(** Rounding a mantissa of at least 53 digits, in the range of the normal
    numbers: the result is the mantissa cut to 53 digits, or the next
    number. *)
Lemma binary_round_aux_bounds sx p ex lx :
  let d := Z.pos (digits2_pos p) in
  53 <= d -> -1074 <= ex + d - 53 -> ex + d <= 1023 ->
  exists m e c,
    binary_round_aux 53 1024 sx (Z.pos p) ex lx = S754_finite sx m e /\
    (c = 0 \/ c = 1) /\
    2 ^ 52 <= Z.pos m < 2 ^ 53 /\
    0 <= e - (ex + d - 53) <= 1 /\
    Z.pos m * 2 ^ (e - (ex + d - 53)) = Z.pos p / 2 ^ (d - 53) + c /\
    2 ^ 52 <= Z.pos p / 2 ^ (d - 53).
Proof.
  intros d Hd Hn Hx. unfold binary_round_aux.
  destruct (shr_fexp_m p ex lx Hd Hn) as (mrs & -> & Hm). fold d in Hm.
  cbv beta iota. fold d.
  pose proof (digits2_pos_bounds p) as [Hlo Hhi]. fold d in Hlo, Hhi.
  set (F := Z.pos p / 2 ^ (d - 53)) in *.
  assert (0 < 2 ^ (d - 53)) as Hpow by (apply Z.pow_pos_nonneg; lia).
  assert (2 ^ 52 <= F < 2 ^ 53) as [HF1 HF2].
  { split.
    - apply Z.div_le_lower_bound; [done|].
      rewrite <- pow2_split by lia. by replace (d - 53 + 52) with (d - 1) by lia.
    - apply Z.div_lt_upper_bound; [done|].
      rewrite <- pow2_split by lia. by replace (d - 53 + 53) with d by lia. }
  set (m1 := round_nearest_even (shr_m mrs) (loc_of_shr_record mrs)).
  assert (exists c, (c = 0 \/ c = 1) /\ m1 = F + c) as (c & Hc & Hm1).
  { destruct (round_nearest_even_cases (shr_m mrs) (loc_of_shr_record mrs))
      as [H|H]; fold m1 in H; rewrite Hm in H; [exists 0|exists 1]; split;
      try tauto; lia. }
  destruct m1 as [|p1|p1] eqn:Ep1; try lia.
  assert (2 ^ 52 <= Z.pos p1 <= 2 ^ 53) as Hp1 by lia.
  destruct (Z.eq_dec (Z.pos p1) (2 ^ 53)) as [Heq|Hne].
  - assert (Z.pos (digits2_pos p1) = 54) as Hd1.
    { apply digits2_pos_unique; [|lia]. rewrite Heq.
      change (54 - 1) with 53. split; [lia|]. by apply Z.pow_lt_mono_r. }
    destruct (shr_fexp_m p1 (ex + d - 53) loc_Exact) as (mrs2 & -> & Hm2);
      [lia|lia|].
    rewrite Hd1, Heq in Hm2. change (2 ^ 53 / 2 ^ (54 - 53)) with (2 ^ 52) in Hm2.
    rewrite Hm2. change (2 ^ 52) with (Z.pos (2 ^ 52)%positive).
    cbn match. rewrite Hd1.
    destruct (Z.leb_spec (ex + d - 53 + 54 - 53) (1024 - 53)); [|lia].
    eexists _, _, c. split; [done|]. split; [done|].
    split; [done|]. split; [lia|]. split; [|done].
    replace (ex + d - 53 + 54 - 53 - (ex + d - 53)) with 1 by lia.
    change (Z.pos (2 ^ 52) * 2 ^ 1) with (2 ^ 53). lia.
  - assert (Z.pos (digits2_pos p1) = 53) as Hd1.
    { apply digits2_pos_unique; [|lia]. change (53 - 1) with 52. lia. }
    destruct (shr_fexp_m p1 (ex + d - 53) loc_Exact) as (mrs2 & -> & Hm2);
      [lia|lia|].
    rewrite Hd1 in Hm2. change (2 ^ (53 - 53)) with 1 in Hm2.
    rewrite Z.div_1_r in Hm2. rewrite Hm2. cbn match. rewrite Hd1.
    destruct (Z.leb_spec (ex + d - 53 + 53 - 53) (1024 - 53)); [|lia].
    eexists _, _, c. split; [done|]. split; [done|].
    split; [lia|]. split; [lia|]. split; [|done].
    replace (ex + d - 53 + 53 - 53 - (ex + d - 53)) with 0 by lia.
    lia.
Qed.

(** *** Rational values *)

Local Open Scope Q_scope.

Lemma Qpow2_pos e : 0 < 2 ^ e.
Proof. by apply Qpower_0_lt. Qed.

Lemma Qpow2_add a b : 2 ^ (a + b) == 2 ^ a * 2 ^ b.
Proof. by apply Qpower_plus. Qed.

Lemma Qpow2_inject k : (0 <= k)%Z -> inject_Z (2 ^ k) == 2 ^ k.
Proof. intros. by rewrite Zpower_Qpower. Qed.

(** The same in rational terms: when [x] lies between the number given to
    [binary_round_aux] and its successor, the result is within [rel_ulp]
    of [x], relatively. *)
Lemma binary_round_aux_rel p ex lx (x : Q) :
  let d := Z.pos (digits2_pos p) in
  (53 <= d)%Z -> (-1074 <= ex + d - 53)%Z -> (ex + d <= 1023)%Z ->
  inject_Z (Z.pos p) * 2 ^ ex <= x ->
  x <= (inject_Z (Z.pos p) + 1) * 2 ^ ex ->
  exists m e,
    binary_round_aux 53 1024 false (Z.pos p) ex lx = S754_finite false m e /\
    (2 ^ 52 <= Z.pos m < 2 ^ 53)%Z /\
    (ex + d - 53 <= e <= ex + d - 52)%Z /\
    x * (1 - rel_ulp) <= F64.value (S754_finite false m e) <= x * (1 + rel_ulp).
Proof.
  intros d Hd Hn Hx Hlo Hhi.
  destruct (binary_round_aux_bounds false p ex lx Hd Hn Hx)
    as (m & e & c & -> & Hc & Hm & He & Hval & HF). fold d in He, Hval, HF.
  exists m, e. split; [done|]. split; [done|]. split; [lia|].
  set (n := (d - 53)%Z) in *. set (F := (Z.pos p / 2 ^ n)%Z) in *.
  set (P := 2 ^ (ex + n)).
  assert (0 < P) as HP by apply Qpow2_pos.
  assert (0 < 2 ^ ex) as HPex by apply Qpow2_pos.
  assert (0 < 2 ^ n)%Z as Hpow by (apply Z.pow_pos_nonneg; lia).
  assert (F64.value (S754_finite false m e) == inject_Z (F + c) * P) as Hv.
  { unfold F64.value, P. rewrite <- Hval, inject_Z_mult.
    replace e with ((ex + n) + (e - (ex + d - 53)))%Z at 1 by lia.
    rewrite Qpow2_add, Qpow2_inject by lia. ring. }
  assert (P == inject_Z (2 ^ n) * 2 ^ ex) as HPn.
  { unfold P. rewrite Qpow2_add, Qpow2_inject by lia. ring. }
  assert (inject_Z F * P <= x) as Ha.
  { eapply Qle_trans; [|exact Hlo]. rewrite HPn, Qmult_assoc.
    apply Qmult_le_compat_r; [|by apply Qlt_le_weak].
    rewrite <- inject_Z_mult, <- Zle_Qle.
    rewrite Z.mul_comm. apply Z.mul_div_le. done. }
  assert (x <= inject_Z F * P + P) as Hb.
  { eapply Qle_trans; [exact Hhi|].
    assert (inject_Z F * P + P == (inject_Z F + 1) * P) as -> by ring.
    rewrite HPn, Qmult_assoc.
    apply Qmult_le_compat_r; [|by apply Qlt_le_weak].
    change 1 with (inject_Z 1).
    rewrite <- !inject_Z_plus, <- inject_Z_mult, <- Zle_Qle.
    pose proof (Z.mul_succ_div_gt (Z.pos p) (2 ^ n) Hpow). fold F in H. lia. }
  assert (P <= rel_ulp * (inject_Z F * P)) as Hd'.
  { rewrite Zle_Qle in HF.
    change (inject_Z (2 ^ 52)) with (4503599627370496 # 1) in HF.
    unfold rel_ulp. nra. }
  rewrite Hv, inject_Z_plus.
  assert (0 <= inject_Z c <= 1) as Hcq.
  { destruct Hc as [-> | ->]; split; discriminate. }
  assert (0 <= inject_Z F * P) as HL.
  { apply Qmult_le_0_compat; [|by apply Qlt_le_weak].
    change 0 with (inject_Z 0). rewrite <- Zle_Qle. lia. }
  split; unfold rel_ulp in *; nra.
Qed.

(** The left shift of [shl_align] multiplies by a power of two. *)
Lemma Pos_iter_xO p k : Z.pos (Pos.iter xO p k) = (Z.pos p * 2 ^ Z.pos k)%Z.
Proof.
  induction k as [|k IH] using Pos.peano_ind.
  - cbn. lia.
  - rewrite Pos.iter_succ, Pos2Z.inj_xO, IH, Pos2Z.inj_succ, Z.pow_succ_r by lia.
    ring.
Qed.

(** [float64(z)] for a positive [int64]: a normal number within one unit
    in the last place of [z]. *)
Lemma of_int64_rel z :
  (0 < z <= Int64.max_int)%Z ->
  exists m e,
    F64.of_int64 z = S754_finite false m e /\
    (2 ^ 52 <= Z.pos m < 2 ^ 53)%Z /\ (-52 <= e <= 11)%Z /\
    inject_Z z * (1 - rel_ulp) <= F64.value (S754_finite false m e)
      <= inject_Z z * (1 + rel_ulp).
Proof.
  intros [Hz0 Hz1]. destruct z as [|p|p]; try lia.
  pose proof (digits2_pos_bounds p) as [Hlo Hhi].
  set (d := Z.pos (digits2_pos p)) in *.
  assert (1 <= d <= 63)%Z as Hd.
  { split; [lia|]. destruct (Z.le_gt_cases d 63) as [|Hgt]; [done|].
    assert (2 ^ 63 <= 2 ^ (d - 1))%Z by (apply Z.pow_le_mono_r; lia).
    unfold Int64.max_int in Hz1. lia. }
  unfold F64.of_int64, binary_normalize, binary_round, fexp, emin, F64.prec,
    F64.emax.
  fold d. rewrite Z.add_0_r, Z.max_l by lia.
  unfold shl_align. destruct (d - 53 - 0)%Z as [|k|k] eqn:Ek.
  - destruct (binary_round_aux_rel p 0 loc_Exact (inject_Z (Z.pos p)))
      as (m & e & -> & Hm & He & Hv); fold d; try lia.
    + change (2 ^ 0) with 1. rewrite Qmult_1_r. apply Qle_refl.
    + change (2 ^ 0) with 1. rewrite Qmult_1_r.
      change 1 with (inject_Z 1). rewrite <- inject_Z_plus, <- Zle_Qle. lia.
    + fold d in He. exists m, e.
      split; [done|]. split; [done|]. split; [lia|]. exact Hv.
  - destruct (binary_round_aux_rel p 0 loc_Exact (inject_Z (Z.pos p)))
      as (m & e & -> & Hm & He & Hv); fold d; try lia.
    + change (2 ^ 0) with 1. rewrite Qmult_1_r. apply Qle_refl.
    + change (2 ^ 0) with 1. rewrite Qmult_1_r.
      change 1 with (inject_Z 1). rewrite <- inject_Z_plus, <- Zle_Qle. lia.
    + fold d in He. exists m, e.
      split; [done|]. split; [done|]. split; [lia|]. exact Hv.
  - pose proof (Pos_iter_xO p k) as Hmz.
    set (mz := Pos.iter xO p k) in *.
    assert (Z.pos k = 53 - d)%Z as Hk by lia.
    assert (Z.pos (digits2_pos mz) = 53)%Z as Hdz.
    { apply digits2_pos_unique; [|lia]. rewrite Hmz, Hk.
      change (53 - 1)%Z with 52%Z. split.
      - replace 52%Z with ((d - 1) + (53 - d))%Z by lia.
        rewrite Z.pow_add_r by lia. apply Z.mul_le_mono_nonneg_r; [|done].
        apply Z.pow_nonneg. lia.
      - replace 53%Z with (d + (53 - d))%Z at 2 by lia.
        rewrite Z.pow_add_r by lia. apply Z.mul_lt_mono_pos_r; [|done].
        apply Z.pow_pos_nonneg; lia. }
    assert (inject_Z (Z.pos mz) * 2 ^ (d - 53) == inject_Z (Z.pos p)) as Heq.
    { rewrite Hmz, inject_Z_mult, Qpow2_inject by lia.
      rewrite <- Qmult_assoc, <- Qpow2_add.
      replace (Z.pos k + (d - 53))%Z with 0%Z by lia.
      change (2 ^ 0) with 1. ring. }
    destruct (binary_round_aux_rel mz (d - 53) loc_Exact (inject_Z (Z.pos p)))
      as (m & e & -> & Hm & He & Hv); rewrite ?Hdz; try lia.
    + rewrite Heq. apply Qle_refl.
    + rewrite Qmult_plus_distr_l, Heq, Qmult_1_l.
      pose proof (Qpow2_pos (d - 53)). lra.
    + rewrite Hdz in He. exists m, e.
      split; [done|]. split; [done|]. split; [lia|]. exact Hv.
Qed.

(** The quotient of two positive normal numbers of moderate exponent: a
    normal number within one unit in the last place of the exact
    quotient. *)
Lemma div_rel m1 e1 m2 e2 :
  (2 ^ 52 <= Z.pos m1 < 2 ^ 53)%Z -> (-52 <= e1 <= 11)%Z ->
  (2 ^ 52 <= Z.pos m2 < 2 ^ 53)%Z -> (-52 <= e2 <= 11)%Z ->
  let X := F64.value (S754_finite false m1 e1) in
  let Y := F64.value (S754_finite false m2 e2) in
  exists m e,
    F64.div (S754_finite false m1 e1) (S754_finite false m2 e2)
      = S754_finite false m e /\
    X * (1 - rel_ulp) <= F64.value (S754_finite false m e) * Y /\
    F64.value (S754_finite false m e) * Y <= X * (1 + rel_ulp).
Proof.
  intros Hm1 He1 Hm2 He2 X Y.
  assert (Z.pos (digits2_pos m1) = 53)%Z as Hd1.
  { apply digits2_pos_unique; [|lia]. change (53 - 1)%Z with 52%Z. lia. }
  assert (Z.pos (digits2_pos m2) = 53)%Z as Hd2.
  { apply digits2_pos_unique; [|lia]. change (53 - 1)%Z with 52%Z. lia. }
  unfold F64.div, SFdiv, SFdiv_core_binary, fexp, emin, F64.prec, F64.emax.
  cbn [Zdigits2]. rewrite Hd1, Hd2.
  replace (53 + e1 - (53 + e2) - 53)%Z with (e1 - e2 - 53)%Z by lia.
  rewrite Z.max_l, Z.min_l by lia.
  replace (e1 - e2 - (e1 - e2 - 53))%Z with 53%Z by lia.
  rewrite Z.shiftl_mul_pow2 by lia.
  set (m' := (Z.pos m1 * 2 ^ 53)%Z).
  pose proof (Z.div_eucl_eq m' (Z.pos m2) ltac:(lia)) as Heucl.
  pose proof (Z.mod_pos_bound m' (Z.pos m2) ltac:(lia)) as Hmod.
  unfold Z.modulo in Hmod.
  destruct (Z.div_eucl m' (Z.pos m2)) as [q r].
  assert (2 ^ 52 <= q < 2 ^ 54)%Z as Hq by (unfold m' in *; nia).
  destruct q as [|pq|pq]; try lia.
  assert (53 <= Z.pos (digits2_pos pq) <= 54)%Z as Hdq.
  { destruct (Z.lt_ge_cases (Z.pos pq) (2 ^ 53)).
    - rewrite (digits2_pos_unique pq 53); [lia| |lia].
      change (53 - 1)%Z with 52%Z. lia.
    - rewrite (digits2_pos_unique pq 54); [lia| |lia].
      change (54 - 1)%Z with 53%Z. lia. }
  assert (0 < inject_Z (Z.pos m2)) as HZlt'.
  { change 0 with (inject_Z 0). rewrite <- Zlt_Qlt. lia. }
  assert (0 < Y) as HY.
  { unfold Y, F64.value. pose proof (Qpow2_pos e2).
    apply Qmult_lt_0_compat; [|done]. rewrite Qmult_1_l.
    change 0 with (inject_Z 0). rewrite <- Zlt_Qlt. lia. }
  assert (X == inject_Z m' * 2 ^ (e1 - e2 - 53) * Y / inject_Z (Z.pos m2)) as HX.
  { unfold X, Y, F64.value, m'. rewrite inject_Z_mult, Qpow2_inject by lia.
    replace e1 with (53 + (e1 - e2 - 53) + e2)%Z at 1 by lia.
    rewrite !Qpow2_add. field. by intros [=]. }
  cbv beta iota. cbn [xorb].
  destruct (binary_round_aux_rel pq (e1 - e2 - 53)
              (new_location (Z.pos m2) r) (X / Y))
    as (m & e & -> & Hm & He & Hv); try lia.
  - apply Qle_shift_div_l; [done|]. rewrite HX.
    apply Qle_shift_div_l; [exact HZlt'|].
    assert (inject_Z (Z.pos pq) * inject_Z (Z.pos m2) <= inject_Z m') as Hle.
    { rewrite <- inject_Z_mult, <- Zle_Qle. cbn in Hmod. lia. }
    pose proof (Qpow2_pos (e1 - e2 - 53)) as HW.
    pose proof (Qmult_lt_0_compat _ _ HW HY) as HWY.
    pose proof (Qmult_le_compat_r _ _ _ Hle (Qlt_le_weak _ _ HWY)) as Hprod.
    nra.
  - apply Qle_shift_div_r; [done|]. rewrite HX.
    apply Qle_shift_div_r; [exact HZlt'|].
    assert (inject_Z m' <= (inject_Z (Z.pos pq) + 1) * inject_Z (Z.pos m2))
      as Hle.
    { change 1 with (inject_Z 1).
      rewrite <- inject_Z_plus, <- inject_Z_mult, <- Zle_Qle.
      cbn in Hmod. lia. }
    pose proof (Qpow2_pos (e1 - e2 - 53)) as HW.
    pose proof (Qmult_lt_0_compat _ _ HW HY) as HWY.
    pose proof (Qmult_le_compat_r _ _ _ Hle (Qlt_le_weak _ _ HWY)) as Hprod.
    nra.
  - exists m, e. split; [done|].
    assert (X == X / Y * Y) as HXY by (field; lra).
    destruct Hv as [Hv1 Hv2].
    apply (fun H => Qmult_le_compat_r _ _ Y H (Qlt_le_weak _ _ HY)) in Hv1, Hv2.
    split; nra.
Qed.

Lemma value_finite_pos m e : 0 < F64.value (S754_finite false m e).
Proof.
  unfold F64.value. pose proof (Qpow2_pos e).
  apply Qmult_lt_0_compat; [|done]. rewrite Qmult_1_l.
  change 0 with (inject_Z 0). rewrite <- Zlt_Qlt. lia.
Qed.

(** One of the three odds: the binary64 quotient of a pool by a positive
    total, against the exact quotient. *)
Lemma odds_rel h t :
  (0 <= h <= Int64.max_int)%Z -> (0 < t <= Int64.max_int)%Z ->
  let o := F64.div (F64.of_int64 h) (F64.of_int64 t) in
  F64.is_finite o = true /\ 0 <= F64.value o /\
  inject_Z h * ((1 - rel_ulp) * (1 - rel_ulp))
    <= F64.value o * inject_Z t * (1 + rel_ulp) /\
  F64.value o * inject_Z t * (1 - rel_ulp)
    <= inject_Z h * ((1 + rel_ulp) * (1 + rel_ulp)).
Proof.
  intros Hh Ht o.
  destruct (of_int64_rel t Ht) as (mt & et & Et & Hmt & Het & Hvt1 & Hvt2).
  assert (0 < inject_Z t) as Htq.
  { change 0 with (inject_Z 0). rewrite <- Zlt_Qlt. lia. }
  destruct (Z.eq_dec h 0%Z) as [->|Hne].
  - unfold o. rewrite Et. cbn. repeat split; discriminate.
  - destruct (of_int64_rel h ltac:(lia))
      as (mh & eh & Eh & Hmh & Heh & Hvh1 & Hvh2).
    destruct (div_rel mh eh mt et Hmh Heh Hmt Het) as (m & e & Ed & Hd1 & Hd2).
    unfold o. rewrite Eh, Et, Ed.
    pose proof (value_finite_pos m e) as Hv.
    pose proof (value_finite_pos mt et) as HT.
    set (v := F64.value (S754_finite false m e)) in *.
    set (VH := F64.value (S754_finite false mh eh)) in *.
    set (VT := F64.value (S754_finite false mt et)) in *.
    split; [done|]. split; [by apply Qlt_le_weak|].
    unfold rel_ulp in *. split; nra.
Qed.

(** The exact sum of the three odds of a positive total. *)
Lemma odds_sum h a d :
  (0 <= h)%Z -> (0 <= a)%Z -> (0 <= d)%Z -> (0 < h + a + d <= Int64.max_int)%Z ->
  let t := (h + a + d)%Z in
  let oh := F64.div (F64.of_int64 h) (F64.of_int64 t) in
  let oa := F64.div (F64.of_int64 a) (F64.of_int64 t) in
  let od := F64.div (F64.of_int64 d) (F64.of_int64 t) in
  1 - odds_tolerance <= F64.value oh + F64.value oa + F64.value od
    <= 1 + odds_tolerance.
Proof.
  intros Hh Ha Hd Ht t oh oa od.
  destruct (odds_rel h t) as (_ & _ & Hh1 & Hh2); [lia|done|].
  destruct (odds_rel a t) as (_ & _ & Ha1 & Ha2); [lia|done|].
  destruct (odds_rel d t) as (_ & _ & Hd1 & Hd2); [lia|done|].
  fold oh in Hh1, Hh2. fold oa in Ha1, Ha2. fold od in Hd1, Hd2.
  set (S := F64.value oh + F64.value oa + F64.value od).
  assert (0 < inject_Z t) as Htq.
  { change 0 with (inject_Z 0). rewrite <- Zlt_Qlt. lia. }
  assert (inject_Z t == inject_Z h + inject_Z a + inject_Z d) as Hsum.
  { unfold t. by rewrite !inject_Z_plus. }
  assert (((1 - rel_ulp) * (1 - rel_ulp)) * inject_Z t
          <= (S * (1 + rel_ulp)) * inject_Z t) as H1.
  { unfold S, rel_ulp in *. nra. }
  assert ((S * (1 - rel_ulp)) * inject_Z t
          <= ((1 + rel_ulp) * (1 + rel_ulp)) * inject_Z t) as H2.
  { unfold S, rel_ulp in *. nra. }
  apply Qmult_lt_0_le_reg_r in H1, H2; try done.
  unfold rel_ulp, odds_tolerance in *. split; lra.
Qed.

End Binary64.

(** ** Odds *)

(** The guard [total <= 0] of [addOdds] fails for a positive total. *)
Lemma of_int64_positive_leb t :
  0 < t <= Int64.max_int -> F64.leb (F64.of_int64 t) F64.zero = false.
Proof.
  intros Ht. destruct (of_int64_rel t Ht) as (m & e & -> & _). done.
Qed.

(** C4, as stated, fails.  The pools [2^62], [2^62] and 0 are not
    negative and their sum is not 0, but the [int64] sum wraps to
    [-2^63], the guard [total <= 0] holds and the three odds are 0: they
    are not the quotients of the pools by the total and do not sum to
    1. *)
Lemma addOdds_overflow_zero_odds :
  let g := mkGame 1 "" "" "" "" StatusPre None (2 ^ 62) (2 ^ 62) 0
             F64.zero F64.zero F64.zero in
  0 <= Game_HomePool g /\ 0 <= Game_AwayPool g /\ 0 <= Game_DrawPool g /\
  Game_HomePool g + Game_AwayPool g + Game_DrawPool g <> 0 /\
  pool_total g = - 2 ^ 63 /\
  Game_HomeOdds (addOdds g) = F64.zero /\
  Game_AwayOdds (addOdds g) = F64.zero /\
  Game_DrawOdds (addOdds g) = F64.zero /\
  Game_HomeOdds (addOdds g)
    <> F64.div (F64.of_int64 (Game_HomePool g)) (F64.of_int64 (2 ^ 63)) /\
  Game_HomeOdds (addOdds g)
    <> F64.div (F64.of_int64 (Game_HomePool g)) (F64.of_int64 (- 2 ^ 63)) /\
  (F64.value (Game_HomeOdds (addOdds g))
   + F64.value (Game_AwayOdds (addOdds g))
   + F64.value (Game_DrawOdds (addOdds g)) == 0)%Q.
Proof. vm_compute. repeat split; discriminate. Qed.

(** C4, as amended.  For pools that are not negative and whose sum fits
    an [int64]: when the sum is 0 the three odds are 0; otherwise each of
    the odds is the binary64 quotient of its pool by the total, a finite
    number, and the exact sum of the three odds is within [2^-50] of 1. *)
Theorem addOdds_well_formed g :
  0 <= Game_HomePool g -> 0 <= Game_AwayPool g -> 0 <= Game_DrawPool g ->
  Game_HomePool g + Game_AwayPool g + Game_DrawPool g <= Int64.max_int ->
  let total := Game_HomePool g + Game_AwayPool g + Game_DrawPool g in
  let g' := addOdds g in
  (total = 0 ->
   Game_HomeOdds g' = F64.zero /\ Game_AwayOdds g' = F64.zero /\
   Game_DrawOdds g' = F64.zero) /\
  (total <> 0 ->
   Game_HomeOdds g'
     = F64.div (F64.of_int64 (Game_HomePool g)) (F64.of_int64 total) /\
   Game_AwayOdds g'
     = F64.div (F64.of_int64 (Game_AwayPool g)) (F64.of_int64 total) /\
   Game_DrawOdds g'
     = F64.div (F64.of_int64 (Game_DrawPool g)) (F64.of_int64 total) /\
   F64.is_finite (Game_HomeOdds g') = true /\
   F64.is_finite (Game_AwayOdds g') = true /\
   F64.is_finite (Game_DrawOdds g') = true /\
   (1 - odds_tolerance
    <= F64.value (Game_HomeOdds g') + F64.value (Game_AwayOdds g')
       + F64.value (Game_DrawOdds g')
    <= 1 + odds_tolerance)%Q).
Proof.
  intros Hh Ha Hd Hsum total g'.
  assert (Int64.add (Int64.add (Game_HomePool g) (Game_AwayPool g))
            (Game_DrawPool g) = total) as Htot.
  { rewrite add_assoc_wrap, Z.add_assoc. apply wrap_in_range.
    unfold Int64.in_range, Int64.min_int, total. lia. }
  unfold g', addOdds. rewrite Htot. split.
  - intros Ht. rewrite Ht. by cbn.
  - intros Ht. assert (0 < total <= Int64.max_int) as Hpos by (unfold total; lia).
    rewrite of_int64_positive_leb by done. cbn [set_Odds Game_HomeOdds
      Game_AwayOdds Game_DrawOdds].
    destruct (odds_rel (Game_HomePool g) total) as (Fh & _); [lia|done|].
    destruct (odds_rel (Game_AwayPool g) total) as (Fa & _); [lia|done|].
    destruct (odds_rel (Game_DrawPool g) total) as (Fd & _); [lia|done|].
    repeat split; try done.
    + by apply odds_sum.
    + by apply odds_sum.
Qed.

Lemma addOdds_well_formed_witness :
  let g := mkGame 102 "Soccer" "Alumni" "Dillon" "t102" StatusPre None
             150 120 30 F64.zero F64.zero F64.zero in
  (1 - odds_tolerance
   <= F64.value (Game_HomeOdds (addOdds g))
      + F64.value (Game_AwayOdds (addOdds g))
      + F64.value (Game_DrawOdds (addOdds g))
   <= 1 + odds_tolerance)%Q.
Proof.
  intros g.
  destruct (addOdds_well_formed g) as [_ H].
  - vm_compute. discriminate.
  - vm_compute. discriminate.
  - vm_compute. discriminate.
  - vm_compute. discriminate.
  - destruct H as (_ & _ & _ & _ & _ & _ & Hsum).
    + vm_compute. discriminate.
    + exact Hsum.
Defined.

(** ** Selections *)

Lemma add_to_pool_None sel stake g :
  add_to_pool sel stake g = None <-> ~ valid_selection sel.
Proof.
  unfold add_to_pool, valid_selection.
  destruct (String.eqb_spec sel SelHome); [split; [done | tauto] |].
  destruct (String.eqb_spec sel SelAway); [split; [done | tauto] |].
  destruct (String.eqb_spec sel SelDraw); [split; [done | tauto] |].
  split; [tauto | done].
Qed.

Lemma winner_pool_invalid result g :
  ~ valid_selection result -> winner_pool result g = 0.
Proof.
  unfold winner_pool, valid_selection. intros H.
  destruct (String.eqb_spec result SelHome); [tauto |].
  destruct (String.eqb_spec result SelAway); [tauto |].
  destruct (String.eqb_spec result SelDraw); [tauto | done].
Qed.

(** ** placeBet: what a call leaves behind *)

(** The store after a failed call: for every error but [bad_selection] it
    is the store before the call. *)
Lemma placeBet_error_store now userID gameID sel stake s s' e :
  placeBet now userID gameID sel stake s = (s', Err e) ->
  e <> bad_selection -> s' = s.
Proof.
  unfold placeBet. intros H Hne.
  repeat (case_match; simplify_eq; try done).
Qed.

(** With [bad_selection] the store is the one before the call with the
    stake taken from the wallet. *)
Lemma placeBet_bad_selection_store now userID gameID sel stake s s' :
  placeBet now userID gameID sel stake s = (s', Err bad_selection) ->
  exists w,
    wallets s !! userID = Some w /\
    s' = set_wallets s
           (<[userID := set_Balance w (Int64.sub (Wallet_Balance w) stake)]>
              (wallets s)).
Proof.
  unfold placeBet. intros H.
  repeat (case_match; simplify_eq; try done). eauto.
Qed.

(** A failed call never touches the games, the bets or the counter. *)
Lemma placeBet_error_frame now userID gameID sel stake s s' e :
  placeBet now userID gameID sel stake s = (s', Err e) ->
  games s' = games s /\ bets s' = bets s /\ nextBet s' = nextBet s /\
  adminKey s' = adminKey s.
Proof.
  unfold placeBet. intros H.
  repeat (case_match; simplify_eq; try done).
Qed.

(** The store after a successful call. *)
Lemma placeBet_ok_store now userID gameID sel stake s s' b w' g' :
  placeBet now userID gameID sel stake s = (s', Ok (b, w', g')) ->
  exists w g,
    wallets s !! userID = Some w /\ games s !! gameID = Some g /\
    0 < stake <= Wallet_Balance w /\ Game_Status g = StatusPre /\
    add_to_pool sel stake g = Some g' /\
    w' = set_Balance w (Int64.sub (Wallet_Balance w) stake) /\
    b = mkBet (nextBet s) userID gameID sel stake now /\
    s' = mkStore (<[gameID := g']> (games s))
                 (<[nextBet s := b]> (bets s))
                 (<[userID := w']> (wallets s))
                 (Int64.add (nextBet s) 1)
                 (adminKey s).
Proof.
  unfold placeBet. intros H.
  repeat (case_match; simplify_eq; try done).
  eexists _, _. repeat split; try done; try lia.
  by destruct (Game_Status _).
Qed.

(** C1. A failed PlaceBet is claimed to leave the whole ledger as it was.
    The call below asks for the selection "tie" on game 101 of the store at
    start-up: it returns [bad_selection], and the wallet of user 1, 1000
    tokens before the call, holds 900 after it.  The games, the bets and
    the counter are as before. *)
Theorem placeBet_bad_selection_keeps_debit :
  let s := newStore "t101" "t102" "t103" in
  let '(s', r) := placeBet "now" 1 101 "tie" 100 s in
  r = Err bad_selection /\
  wallets s !! 1 = Some (mkWallet 1 1000) /\
  wallets s' !! 1 = Some (mkWallet 1 900) /\
  games s' = games s /\ bets s' = bets s /\ nextBet s' = nextBet s.
Proof. vm_compute. repeat split. Qed.

(** C5. PlaceBet returns the error of the first precondition, in the order
    of the specification, that the call violates, and succeeds when the
    call violates none. *)
Theorem placeBet_first_violation now userID gameID sel stake s :
  match first_violation userID gameID sel stake s with
  | Some e => snd (placeBet now userID gameID sel stake s) = Err e
  | None => exists r, snd (placeBet now userID gameID sel stake s) = Ok r
  end.
Proof.
  unfold first_violation, placeBet, add_to_pool.
  cbn [List.find placeBet_checks violated].
  destruct (wallets s !! userID) as [w|]; cbn; [|done].
  destruct (Z.ltb_spec 0 stake), (Z.leb_spec stake 0); cbn; try lia; [|done].
  destruct (Z.leb_spec stake (Wallet_Balance w)),
    (Z.ltb_spec (Wallet_Balance w) stake); cbn; try lia; [|done].
  destruct (games s !! gameID) as [g|]; cbn; [|done].
  destruct (Game_Status g); cbn; [|done].
  destruct (String.eqb sel SelHome); cbn; [eauto|].
  destruct (String.eqb sel SelAway); cbn; [eauto|].
  destruct (String.eqb sel SelDraw); cbn; [eauto|done].
Qed.

(** ** settle: what a call leaves behind *)

Lemma winner_pool_set_Settled result r g :
  winner_pool result (set_Settled g r) = winner_pool result g.
Proof. unfold winner_pool. by repeat case_match. Qed.

Lemma pool_total_set_Settled r g : pool_total (set_Settled g r) = pool_total g.
Proof. done. Qed.

(** The store after a successful call. *)
Lemma settle_ok_store key gameID result s s' g' :
  settle key gameID result s = Returns s' (Ok g') ->
  key = adminKey s /\
  exists g,
    games s !! gameID = Some g /\ Game_Status g = StatusPre /\
    g' = set_Settled g result /\
    games s' = <[gameID := g']> (games s) /\
    bets s' = bets s /\ nextBet s' = nextBet s /\ adminKey s' = adminKey s /\
    (if winner_pool result g =? 0 then wallets s' = wallets s
     else pay_bets gameID result (winner_pool result g) (pool_total g)
            (map_to_list (bets s)) (wallets s) = Some (wallets s')).
Proof.
  unfold settle. intros H.
  destruct (String.eqb_spec key (adminKey s)) as [->|]; [|done].
  split; [done|]. cbn in H.
  destruct (games s !! gameID) as [g|] eqn:Hg; [|done].
  destruct (Game_Status g) eqn:Hst; [|done]. cbn in H.
  rewrite winner_pool_set_Settled, pool_total_set_Settled in H.
  exists g. destruct (winner_pool result g =? 0) eqn:Hw.
  - by simplify_eq.
  - cbn in H. case_match; by simplify_eq.
Qed.

(** A failed call returns the store it was given. *)
Lemma settle_error_store key gameID result s s' e :
  settle key gameID result s = Returns s' (Err e) -> s' = s.
Proof.
  unfold settle. intros H. repeat (case_match; simplify_eq; try done).
Qed.

(** *** The payout loop *)

Lemma pay_bet_lookup gameID result winnerPool total b ws ws' u :
  pay_bet gameID result winnerPool total b ws = Some ws' ->
  ws' !! u =
    (fun w =>
       if wins gameID result b && (Bet_UserID b =? u)
       then set_Balance w
              (Int64.add (Wallet_Balance w)
                 (payout (Bet_Stake b) winnerPool total))
       else w) <$> ws !! u.
Proof.
  unfold pay_bet. destruct (wins gameID result b); cbn.
  - destruct (ws !! Bet_UserID b) as [w|] eqn:Hw; [|done].
    intros [= <-]. destruct (Z.eqb_spec (Bet_UserID b) u) as [<-|Hne].
    + by rewrite lookup_insert_eq, Hw.
    + rewrite lookup_insert_ne by done. by destruct (ws !! u).
  - intros [= <-]. by destruct (ws !! u).
Qed.

Lemma pay_bet_is_Some gameID result winnerPool total b ws :
  (wins gameID result b = true -> is_Some (ws !! Bet_UserID b)) ->
  is_Some (pay_bet gameID result winnerPool total b ws).
Proof.
  unfold pay_bet. destruct (wins gameID result b); [|done].
  intros [w ->]; done.
Qed.

Lemma winnings_cons gameID result winnerPool total u kb bs :
  winnings gameID result winnerPool total u (kb :: bs) =
  (if wins gameID result (snd kb) && (Bet_UserID (snd kb) =? u)
   then payout (Bet_Stake (snd kb)) winnerPool total else 0)
  + winnings gameID result winnerPool total u bs.
Proof. unfold winnings. cbn. by case_match. Qed.

(** The loop neither adds nor removes a wallet. *)
Lemma pay_bets_dom gameID result winnerPool total bs ws ws' u :
  pay_bets gameID result winnerPool total bs ws = Some ws' ->
  is_Some (ws' !! u) <-> is_Some (ws !! u).
Proof.
  revert ws'. induction bs as [|kb bs IH]; intros ws' Hrun.
  - by injection Hrun as <-.
  - unfold pay_bets in Hrun, IH. cbn in Hrun.
    destruct (foldr _ _ bs) as [ws1|]; [|done]. cbn in Hrun.
    rewrite (pay_bet_lookup _ _ _ _ _ _ _ u Hrun), fmap_is_Some.
    by apply IH.
Qed.

(** The loop keeps the set of wallets and, when it runs to its end, leaves
    every balance raised, with wrap-around, by the winnings of its user. *)
Lemma pay_bets_lookup gameID result winnerPool total bs ws ws' u :
  pay_bets gameID result winnerPool total bs ws = Some ws' ->
  match ws !! u with
  | Some w =>
      Int64.in_range (Wallet_Balance w) ->
      ws' !! u =
        Some (set_Balance w
                (Int64.wrap
                   (Wallet_Balance w
                    + winnings gameID result winnerPool total u bs)))
  | None => ws' !! u = None
  end.
Proof.
  revert ws'. induction bs as [|kb bs IH]; intros ws' Hrun.
  - injection Hrun as <-. destruct (ws !! u) as [[id bal]|] eqn:Hu; [|done].
    intros Hr. cbn. by rewrite Z.add_0_r, wrap_in_range.
  - unfold pay_bets in Hrun, IH. cbn in Hrun.
    destruct (foldr _ _ bs) as [ws1|]; [|done]. cbn in Hrun.
    specialize (IH ws1 eq_refl).
    rewrite (pay_bet_lookup _ _ _ _ _ _ _ u Hrun), winnings_cons.
    destruct (ws !! u) as [w|]; [|by rewrite IH].
    intros Hr. rewrite (IH Hr). cbn -[winnings].
    destruct (wins gameID result kb.2 && (Bet_UserID kb.2 =? u)).
    + unfold set_Balance, Int64.add. cbn -[winnings].
      rewrite wrap_add_l. do 3 f_equal. lia.
    + by rewrite Z.add_0_l.
Qed.

(** The loop runs to its end when every winning bet names a wallet. *)
Lemma pay_bets_is_Some gameID result winnerPool total bs ws :
  (forall kb, kb ∈ bs -> wins gameID result (snd kb) = true ->
              is_Some (ws !! Bet_UserID (snd kb))) ->
  is_Some (pay_bets gameID result winnerPool total bs ws).
Proof.
  induction bs as [|kb bs IH]; intros Hws; [done|].
  destruct IH as [ws1 Hrun]. { intros ? ?. apply Hws. by right. }
  unfold pay_bets in *. cbn. rewrite Hrun. cbn.
  apply pay_bet_is_Some. intros Hwin.
  apply (pay_bets_dom gameID result winnerPool total bs ws); [done|].
  apply Hws; [by left|done].
Qed.

(** The loop panics when a winning bet names no wallet. *)
Lemma pay_bets_panics gameID result winnerPool total bs ws k b :
  (k, b) ∈ bs -> wins gameID result b = true -> ws !! Bet_UserID b = None ->
  pay_bets gameID result winnerPool total bs ws = None.
Proof.
  intros Hin Hwin Hw. unfold pay_bets.
  induction bs as [|[k' b'] bs IH]; [by apply elem_of_nil in Hin|].
  cbn. apply elem_of_cons in Hin as [[= <- <-]|Hin].
  - destruct (foldr _ _ bs) as [ws1|] eqn:Hrun; [|done]. cbn.
    unfold pay_bet. rewrite Hwin.
    assert (ws1 !! Bet_UserID b = None) as ->; [|done].
    clear IH. revert ws1 Hrun. induction bs as [|[k2 b2] bs IH2]; cbn.
    + by intros ? [= <-].
    + intros ws2. destruct (foldr _ _ bs) as [ws3|]; [|done]. cbn.
      intros Hp. rewrite (pay_bet_lookup _ _ _ _ _ _ _ _ Hp).
      by rewrite (IH2 ws3).
  - by rewrite IH.
Qed.

(** The order in which the loop meets the bets does not matter. *)
Lemma pay_bets_Permutation gameID result winnerPool total bs bs' ws :
  bs ≡ₚ bs' ->
  pay_bets gameID result winnerPool total bs ws =
  pay_bets gameID result winnerPool total bs' ws.
Proof.
  intros Hp. unfold pay_bets.
  apply (foldr_permutation_proper (=)); [solve_proper| |done].
  clear. intros [k1 b1] [k2 b2] [ws|]; [|done]. cbn.
  destruct (pay_bet gameID result winnerPool total b1 ws) as [w1|] eqn:H1,
    (pay_bet gameID result winnerPool total b2 ws) as [w2|] eqn:H2; cbn.
  - destruct (pay_bet_is_Some gameID result winnerPool total b1 w2) as [w12 H12].
    { intros Hw. rewrite (pay_bet_lookup _ _ _ _ _ _ _ _ H2).
      unfold pay_bet in H1. rewrite Hw in H1.
      destruct (ws !! Bet_UserID b1); done. }
    destruct (pay_bet_is_Some gameID result winnerPool total b2 w1) as [w21 H21].
    { intros Hw. rewrite (pay_bet_lookup _ _ _ _ _ _ _ _ H1).
      unfold pay_bet in H2. rewrite Hw in H2.
      destruct (ws !! Bet_UserID b2); done. }
    rewrite H12, H21. f_equal. apply map_eq. intros u.
    rewrite (pay_bet_lookup _ _ _ _ _ _ _ u H12),
      (pay_bet_lookup _ _ _ _ _ _ _ u H21),
      (pay_bet_lookup _ _ _ _ _ _ _ u H1),
      (pay_bet_lookup _ _ _ _ _ _ _ u H2).
    destruct (ws !! u) as [w|]; [|done]. cbn. f_equal.
    destruct (wins gameID result b1 && (Bet_UserID b1 =? u)),
      (wins gameID result b2 && (Bet_UserID b2 =? u)); try done.
    unfold set_Balance; cbn. f_equal. rewrite !add_assoc_wrap. f_equal. lia.
  - unfold pay_bet in H2 |- *. destruct (wins gameID result b2); [|done].
    rewrite (pay_bet_lookup _ _ _ _ _ _ _ _ H1).
    destruct (ws !! Bet_UserID b2); done.
  - unfold pay_bet in H1 |- *. destruct (wins gameID result b1); [|done].
    rewrite (pay_bet_lookup _ _ _ _ _ _ _ _ H2).
    destruct (ws !! Bet_UserID b1); done.
  - done.
Qed.

(** ** Settlement *)

(** C2, as amended.  After a successful settlement with a winning pool
    other than 0, every wallet holds its former balance plus the payouts
    of its user's bets on the game with the winning selection (an [int64]
    sum); a payout is the [int64] conversion of the binary64 product
    [float64(stake) / float64(winnerPool) * float64(total)].  Bets on other
    selections or other games add nothing, and no wallet appears or
    disappears.  In the scenario of the specification the bettor receives
    150. *)
Theorem settle_credits_winners :
  (forall key gameID result s s' g g' u,
     games s !! gameID = Some g ->
     settle key gameID result s = Returns s' (Ok g') ->
     winner_pool result g <> 0 ->
     match wallets s !! u with
     | Some w =>
         Int64.in_range (Wallet_Balance w) ->
         wallets s' !! u =
           Some (set_Balance w
                   (Int64.wrap
                      (Wallet_Balance w
                       + winnings gameID result (winner_pool result g)
                           (pool_total g) u (map_to_list (bets s)))))
     | None => wallets s' !! u = None
     end) /\
  (let s1 := fst (placeBet "now" 1 101 SelHome 100
                    (newStore "t101" "t102" "t103")) in
   exists s2 g,
     settle "letmein" 101 SelHome s1 = Returns s2 (Ok g) /\
     wallets s1 !! 1 = Some (mkWallet 1 900) /\
     wallets s2 !! 1 = Some (mkWallet 1 (900 + 150))).
Proof.
  split.
  - intros key gameID result s s' g g' u Hg Hs Hw.
    apply settle_ok_store in Hs as (_ & g0 & Hg0 & _ & _ & _ & _ & _ & _ & Hpay).
    simplify_eq. destruct (Z.eqb_spec (winner_pool result g) 0); [done|].
    pose proof (pay_bets_lookup _ _ _ _ _ _ _ u Hpay) as Hu.
    destruct (wallets s !! u); [|done]. intros Hr. by apply Hu.
  - eexists _, _. vm_compute. repeat split.
Qed.

Lemma settle_credits_winners_witness :
  let s1 := fst (placeBet "now" 1 101 SelHome 100
                   (newStore "t101" "t102" "t103")) in
  exists s2 g2,
    settle "letmein" 101 SelHome s1 = Returns s2 (Ok g2) /\
    wallets s2 !! 1 = Some (mkWallet 1 1050).
Proof.
  intros s1. eexists _, _. split; [vm_compute; reflexivity|].
  pose proof (proj1 settle_credits_winners "letmein" 101 SelHome s1) as H.
  specialize (H _ _ _ 1 ltac:(vm_compute; reflexivity)
                ltac:(vm_compute; reflexivity)
                ltac:(vm_compute; discriminate)).
  vm_compute in H. apply H. split; discriminate.
Defined.

(** C2, as stated, fails.  Two bets of 7, one on home and one on away,
    bring game 101 to a home pool of 107 and a total of 214.  The one
    home bet has stake 7 and [floor ((7 / 107) * 214)] is 14, but the
    settlement credits 13: the binary64 quotient lies below 7/107 and
    the product below 14. *)
Lemma settle_payout_below_exact_floor :
  let s0 := newStore "t101" "t102" "t103" in
  let s1 := fst (placeBet "now1" 1 101 SelHome 7 s0) in
  let s2 := fst (placeBet "now2" 1 101 SelAway 7 s1) in
  match settle "letmein" 101 SelHome s2 with
  | Returns s3 (Ok g) =>
      Game_HomePool g = 107 /\ pool_total g = 214 /\
      bets s2 = <[2 := mkBet 2 1 101 SelAway 7 "now2"]>
                  (<[1 := mkBet 1 1 101 SelHome 7 "now1"]> ∅) /\
      exact_payout 7 107 214 = 14 /\
      wallets s2 !! 1 = Some (mkWallet 1 986) /\
      wallets s3 !! 1 = Some (mkWallet 1 (986 + 13)) /\
      wallets s3 !! 1 <> Some (mkWallet 1 (986 + exact_payout 7 107 214))
  | _ => False
  end.
Proof. vm_compute. repeat split. discriminate. Qed.

(** C3.  After a successful settlement a second call with the admin key,
    whatever result it names, returns [already_settled] and the store it
    was given; a call whose key is not the admin key returns [forbidden]
    and the store it was given, so the game keeps its status. *)
Theorem settle_again_or_forbidden key gameID result s :
  (forall s1 g1 result',
     settle key gameID result s = Returns s1 (Ok g1) ->
     settle key gameID result' s1 = Returns s1 (Err already_settled)) /\
  (key <> adminKey s ->
   settle key gameID result s = Returns s (Err forbidden)).
Proof.
  split.
  - intros s1 g1 result' Hs.
    apply settle_ok_store in Hs
      as (-> & g & Hg & _ & -> & Hgs & _ & _ & Hk & _).
    unfold settle. rewrite Hk, String.eqb_refl. cbn.
    by rewrite Hgs, lookup_insert_eq.
  - intros Hk. unfold settle.
    by destruct (String.eqb_spec key (adminKey s)).
Qed.

Lemma settle_again_or_forbidden_witness :
  let s := newStore "t101" "t102" "t103" in
  settle "guess" 101 SelHome s = Returns s (Err forbidden).
Proof.
  intros s.
  apply (proj2 (settle_again_or_forbidden "guess" 101 SelHome s)).
  vm_compute. discriminate.
Defined.

(** C6.  When the pool of the result is 0, a settlement with the admin key
    of a game in [StatusPre] returns the game, now in [StatusDone] with
    the result recorded and the pools as they were, and changes nothing
    else in the store: wallets, bets and counter are as before. *)
Theorem settle_empty_winner_pool key gameID result s g :
  key = adminKey s ->
  games s !! gameID = Some g ->
  Game_Status g = StatusPre ->
  winner_pool result g = 0 ->
  exists s' g',
    settle key gameID result s = Returns s' (Ok g') /\
    Game_Status g' = StatusDone /\ Game_Result g' = Some result /\
    Game_HomePool g' = Game_HomePool g /\
    Game_AwayPool g' = Game_AwayPool g /\
    Game_DrawPool g' = Game_DrawPool g /\
    games s' = <[gameID := g']> (games s) /\
    wallets s' = wallets s /\ bets s' = bets s /\ nextBet s' = nextBet s.
Proof.
  intros -> Hg Hst Hw. unfold settle.
  rewrite String.eqb_refl, Hg, Hst. cbn.
  rewrite winner_pool_set_Settled, Hw. cbn.
  eexists _, _. repeat split.
Qed.

Lemma settle_empty_winner_pool_witness :
  let s := newStore "t101" "t102" "t103" in
  exists s' g',
    settle "letmein" 101 SelDraw s = Returns s' (Ok g') /\
    Game_Status g' = StatusDone /\ wallets s' = wallets s.
Proof.
  intros s.
  destruct (settle_empty_winner_pool "letmein" 101 SelDraw s
              (mkGame 101 "Flag Football" "Welsh Fam Whirls" "Lewis Chicks"
                 "t101" StatusPre None 100 100 0
                 F64.zero F64.zero F64.zero)
              eq_refl eq_refl eq_refl eq_refl)
    as (s' & g' & H1 & H2 & _ & _ & _ & _ & _ & H3 & _).
  exists s', g'. repeat split; assumption.
Defined.

(** C9.  A result that is none of home, away and draw is accepted: the
    settlement with the admin key of a game in [StatusPre] returns no
    error, the game is in [StatusDone] with that value as its result, the
    winning pool counts as 0 and no wallet changes. *)
Theorem settle_unknown_result key gameID result s g :
  ~ valid_selection result ->
  key = adminKey s ->
  games s !! gameID = Some g ->
  Game_Status g = StatusPre ->
  winner_pool result g = 0 /\
  exists s' g',
    settle key gameID result s = Returns s' (Ok g') /\
    Game_Status g' = StatusDone /\ Game_Result g' = Some result /\
    games s' = <[gameID := g']> (games s) /\
    wallets s' = wallets s /\ bets s' = bets s.
Proof.
  intros Hsel -> Hg Hst.
  pose proof (winner_pool_invalid result g Hsel) as Hw. split; [done|].
  unfold settle. rewrite String.eqb_refl, Hg, Hst. cbn.
  rewrite winner_pool_set_Settled, Hw. cbn.
  eexists _, _. repeat split.
Qed.

Lemma settle_unknown_result_witness :
  let s := newStore "t101" "t102" "t103" in
  exists s' g',
    settle "letmein" 102 "cancelled" s = Returns s' (Ok g') /\
    Game_Result g' = Some "cancelled" /\ wallets s' = wallets s.
Proof.
  intros s.
  destruct (settle_unknown_result "letmein" 102 "cancelled" s
              (mkGame 102 "Soccer" "Alumni" "Dillon" "t102"
                 StatusPre None 150 120 30 F64.zero F64.zero F64.zero))
    as (_ & s' & g' & H1 & _ & H2 & _ & H3 & _).
  - unfold valid_selection. vm_compute. intros [H|[H|H]]; discriminate H.
  - reflexivity.
  - reflexivity.
  - reflexivity.
  - exists s', g'. repeat split; assumption.
Defined.

(** ** Runs of requests *)

Lemma settle_frame key gameID result s s' r :
  settle key gameID result s = Returns s' r ->
  bets s' = bets s /\ nextBet s' = nextBet s /\ adminKey s' = adminKey s /\
  forall u, is_Some (wallets s' !! u) <-> is_Some (wallets s !! u).
Proof.
  destruct r as [g'|e]; intros H.
  - apply settle_ok_store in H
      as (_ & g & _ & _ & _ & _ & Hb & Hn & Hk & Hpay).
    repeat split; try done;
      (destruct (winner_pool result g =? 0); [by rewrite Hpay|]);
      by apply (pay_bets_dom _ _ _ _ _ _ _ u Hpay).
  - apply settle_error_store in H as ->. done.
Qed.








(** ** Bet ids *)

Lemma handle_frame rq s s' r :
  handle rq s = Returns s' r ->
  match r with
  | RespBet (Ok (b, _, _)) =>
      b = mkBet (nextBet s) (Bet_UserID b) (Bet_GameID b) (Bet_Selection b)
            (Bet_Stake b) (Bet_PlacedAt b) /\
      is_Some (wallets s !! Bet_UserID b) /\
      bets s' = <[nextBet s := b]> (bets s) /\
      nextBet s' = Int64.add (nextBet s) 1
  | _ => bets s' = bets s /\ nextBet s' = nextBet s
  end /\
  forall u, is_Some (wallets s' !! u) <-> is_Some (wallets s !! u).
Proof.
  destruct rq as [now u g sel stake|key g res]; cbn.
  - destruct (placeBet now u g sel stake s) as [s1 [[[b w'] g']|e]] eqn:Hp;
      intros [= <- <-].
    + apply placeBet_ok_store in Hp
        as (w & g0 & Hw & _ & _ & _ & _ & -> & -> & ->). cbn.
      repeat split; try done.
      * intros [x Hx]. destruct (decide (u = u0)) as [->|Hne]; [done|].
        by rewrite lookup_insert_ne in Hx.
      * intros Hx. destruct (decide (u = u0)) as [->|Hne].
        -- by rewrite lookup_insert_eq.
        -- by rewrite lookup_insert_ne.
    + pose proof (placeBet_error_frame _ _ _ _ _ _ _ _ Hp) as (_ & Hb & Hn & _).
      split; [done|]. intros u0.
      destruct (decide (e = bad_selection)) as [->|Hne].
      * apply placeBet_bad_selection_store in Hp as (w & Hw & ->). cbn.
        destruct (decide (u = u0)) as [->|Hne].
        -- by rewrite lookup_insert_eq, Hw.
        -- by rewrite lookup_insert_ne.
      * by rewrite (placeBet_error_store _ _ _ _ _ _ _ _ Hp Hne).
  - destruct (settle key g res s) as [s1 r1|] eqn:Hs; intros [= <- <-].
    apply settle_frame in Hs as (Hb & Hn & _ & Hw). done.
Qed.



(** ** Bets and wallets *)

Lemma handle_bets_have_wallets rq s s' r :
  handle rq s = Returns s' r -> bets_have_wallets s -> bets_have_wallets s'.
Proof.
  intros Hh Hinv id b Hb. apply handle_frame in Hh as [Hh Hw].
  apply Hw. destruct r as [[[[b0 w'] g']|e]|r1].
  - destruct Hh as (_ & Hu & Hbets & _). rewrite Hbets in Hb.
    destruct (decide (nextBet s = id)) as [<-|Hne].
    + rewrite lookup_insert_eq in Hb. by injection Hb as <-.
    + rewrite lookup_insert_ne in Hb by done. by eapply Hinv.
  - destruct Hh as [Hbets _]. rewrite Hbets in Hb. by eapply Hinv.
  - destruct Hh as [Hbets _]. rewrite Hbets in Hb. by eapply Hinv.
Qed.

Lemma settle_no_panic key gameID result s :
  bets_have_wallets s -> settle key gameID result s <> Panics.
Proof.
  intros Hinv. unfold settle. repeat (case_match; try done).
  match goal with
  | H : pay_bets ?g ?r ?wp ?t ?bs ?ws = None |- _ =>
      destruct (pay_bets_is_Some g r wp t bs ws) as [x Hx];
        [|by rewrite Hx in H]
  end.
  intros [id b] Hin _. cbn in *.
  apply elem_of_map_to_list in Hin. by eapply Hinv.
Qed.

Lemma reachable_invariant s : reachable s -> bets_have_wallets s.
Proof.
  induction 1 as [t1 t2 t3|rq s s' r _ IH Hh].
  - intros id b Hb. cbn in Hb. by rewrite lookup_empty in Hb.
  - by eapply handle_bets_have_wallets.
Qed.

(** C10.  In every store the server can reach, every recorded bet names
    a user who has a wallet; so no settlement panics at the wallet lookup
    of the payout loop, and a settlement that pays leaves every bettor of
    the store with a wallet. *)
Theorem reachable_bets_have_wallets s :
  reachable s ->
  bets_have_wallets s /\
  (forall key gameID result, settle key gameID result s <> Panics) /\
  (forall key gameID result s' r id b,
     settle key gameID result s = Returns s' r ->
     bets s !! id = Some b -> is_Some (wallets s' !! Bet_UserID b)).
Proof.
  intros Hreach. pose proof (reachable_invariant s Hreach) as Hinv.
  split; [done|]. split.
  - intros key gameID result. by apply settle_no_panic.
  - intros key gameID result s' r id b Hs Hb.
    apply settle_frame in Hs as (_ & _ & _ & Hw). apply Hw. by eapply Hinv.
Qed.

Lemma reachable_bets_have_wallets_witness :
  let s := fst (placeBet "now" 1 101 SelHome 100
                  (newStore "t101" "t102" "t103")) in
  bets_have_wallets s /\ settle "letmein" 101 SelHome s <> Panics.
Proof.
  intros s.
  destruct (reachable_bets_have_wallets s) as (Hinv & Hsettle & _).
  - apply (reachable_handle (ReqPlaceBet "now" 1 101 SelHome 100)
             (newStore "t101" "t102" "t103") s
             (RespBet (snd (placeBet "now" 1 101 SelHome 100
                              (newStore "t101" "t102" "t103"))))).
    + apply reachable_newStore.
    + vm_compute. reflexivity.
  - split; [exact Hinv | apply Hsettle].
Defined.

(** No run of requests from the store at start-up panics. *)
Lemma serve_reachable rqs s :
  reachable s ->
  exists s' rs, serve rqs s = Returns s' rs /\ reachable s'.
Proof.
  revert s. induction rqs as [|rq rqs IH]; intros s Hreach.
  - by exists s, [].
  - cbn. destruct (handle rq s) as [s1 r|] eqn:Hh.
    + destruct (IH s1) as (s' & rs & -> & Hr'); [by econstructor|].
      by eexists _, _.
    + destruct rq as [now u g sel stake|key g res]; cbn in Hh.
      * by destruct (placeBet now u g sel stake s).
      * destruct (settle key g res s) eqn:Hs; [done|].
        by apply settle_no_panic in Hs; [|apply reachable_invariant].
Qed.


(** * Further properties of the ledger *)

(** ** What a request changes *)

Lemma add_to_pool_fields sel stake g g' :
  add_to_pool sel stake g = Some g' ->
  valid_selection sel /\ same_identity g g' /\
  Game_Status g' = Game_Status g /\ Game_Result g' = Game_Result g /\
  Game_HomeOdds g' = Game_HomeOdds g /\ Game_AwayOdds g' = Game_AwayOdds g /\
  Game_DrawOdds g' = Game_DrawOdds g.
Proof.
  unfold add_to_pool, valid_selection, same_identity. intros H.
  destruct (String.eqb_spec sel SelHome); [simplify_eq; cbn; tauto|].
  destruct (String.eqb_spec sel SelAway); [simplify_eq; cbn; tauto|].
  destruct (String.eqb_spec sel SelDraw); [simplify_eq; cbn; tauto|done].
Qed.

(** The games after a request, one by one. *)
Lemma handle_games rq s s' r gid :
  handle rq s = Returns s' r ->
  games s' !! gid = games s !! gid \/
  exists g g',
    games s !! gid = Some g /\ games s' !! gid = Some g' /\
    Game_Status g = StatusPre /\
    ((exists sel stake, add_to_pool sel stake g = Some g') \/
     (exists result, g' = set_Settled g result)).
Proof.
  destruct rq as [now u g sel stake|key g res]; cbn.
  - destruct (placeBet now u g sel stake s) as [s1 [[[b w'] g']|e]] eqn:Hp;
      intros [= <- <-].
    + apply placeBet_ok_store in Hp
        as (w & g0 & _ & Hg & _ & Hst & Hadd & _ & _ & ->). cbn.
      destruct (decide (g = gid)) as [->|Hne].
      * right. exists g0, g'. rewrite lookup_insert_eq. eauto 10.
      * left. by rewrite lookup_insert_ne.
    + left. by apply placeBet_error_frame in Hp as (-> & _).
  - destruct (settle key g res s) as [s1 [g'|e]|] eqn:Hs; intros [= <- <-].
    + apply settle_ok_store in Hs as (_ & g0 & Hg & Hst & -> & -> & _).
      destruct (decide (g = gid)) as [->|Hne].
      * right. exists g0, (set_Settled g0 res). rewrite lookup_insert_eq.
        eauto 10.
      * left. by rewrite lookup_insert_ne.
    + left. by apply settle_error_store in Hs as ->.
Qed.

(** X1.  No request adds or removes a game, and none changes the id, the
    sport, the teams or the start time of a game. *)
Theorem handle_keeps_game_identity rq s s' r gid :
  handle rq s = Returns s' r ->
  match games s !! gid, games s' !! gid with
  | Some g, Some g' => same_identity g g'
  | None, None => True
  | _, _ => False
  end.
Proof.
  intros Hh. destruct (handle_games rq s s' r gid Hh)
    as [->|(g & g' & -> & -> & _ & [(sel & stake & Hadd)| [res ->]])].
  - destruct (games s !! gid); [by repeat split|done].
  - by apply add_to_pool_fields in Hadd as (_ & ? & _).
  - by repeat split.
Qed.

Lemma handle_keeps_game_identity_witness :
  let s := newStore "t101" "t102" "t103" in
  match games (fst (placeBet "now" 1 101 SelHome 100 s)) !! 101 with
  | Some g' => Game_Sport g' = "Flag Football"
  | None => False
  end.
Proof.
  intros s.
  pose proof (handle_keeps_game_identity
                (ReqPlaceBet "now" 1 101 SelHome 100) s
                (fst (placeBet "now" 1 101 SelHome 100 s))
                (RespBet (snd (placeBet "now" 1 101 SelHome 100 s))) 101
                ltac:(vm_compute; reflexivity)) as H.
  change (games s !! 101)
    with (Some (mkGame 101 "Flag Football" "Welsh Fam Whirls" "Lewis Chicks"
                  "t101" StatusPre None 100 100 0
                  F64.zero F64.zero F64.zero)) in H.
  destruct (games (fst (placeBet "now" 1 101 SelHome 100 s)) !! 101);
    [|exact H].
  destruct H as (_ & H & _). exact H.
Defined.

(** X2.  A settled game is final: whatever request follows, the game is
    afterwards the very record it was, status, result and pools
    included. *)
Theorem handle_settled_game_frozen rq s s' r gid g :
  handle rq s = Returns s' r ->
  games s !! gid = Some g ->
  Game_Status g = StatusDone ->
  games s' !! gid = Some g.
Proof.
  intros Hh Hg Hst. destruct (handle_games rq s s' r gid Hh)
    as [->|(g0 & g' & Hg0 & _ & Hpre & _)]; [done|].
  rewrite Hg in Hg0. injection Hg0 as <-. congruence.
Qed.

Lemma handle_settled_game_frozen_witness :
  let s := newStore "t101" "t102" "t103" in
  exists s1 s2 g r,
    settle "letmein" 101 SelAway s = Returns s1 (Ok g) /\
    handle (ReqPlaceBet "now" 1 101 SelHome 5) s1 = Returns s2 r /\
    games s2 !! 101 = Some g.
Proof.
  intros s.
  destruct (settle "letmein" 101 SelAway s) as [s1 [g|e]|] eqn:Hs;
    try (vm_compute in Hs; discriminate).
  destruct (handle (ReqPlaceBet "now" 1 101 SelHome 5) s1) as [s2 r|] eqn:Hh;
    [|vm_compute in Hs; injection Hs as <- <-; vm_compute in Hh; discriminate].
  exists s1, s2, g, r. split; [reflexivity|]. split; [exact Hh|].
  apply (handle_settled_game_frozen _ s1 s2 r 101 g Hh).
  - vm_compute in Hs. injection Hs as <- <-. reflexivity.
  - vm_compute in Hs. injection Hs as <- <-. reflexivity.
Defined.

(** X3.  A settlement changes the pools of no game, the settled one
    included, and neither request touches a game it does not name. *)
Theorem handle_pools_frame rq s s' r gid g :
  handle rq s = Returns s' r ->
  games s !! gid = Some g ->
  match rq with
  | ReqSettle _ _ _ =>
      exists g', games s' !! gid = Some g' /\
        Game_HomePool g' = Game_HomePool g /\
        Game_AwayPool g' = Game_AwayPool g /\
        Game_DrawPool g' = Game_DrawPool g
  | ReqPlaceBet _ _ gameID _ _ =>
      gameID <> gid -> games s' !! gid = Some g
  end.
Proof.
  intros Hh Hg. destruct rq as [now u g0 sel stake|key g0 res]; cbn in Hh.
  - intros Hne.
    destruct (placeBet now u g0 sel stake s) as [s1 [[[b w'] g']|e]] eqn:Hp;
      injection Hh as <- <-.
    + apply placeBet_ok_store in Hp as (w & g1 & _ & _ & _ & _ & _ & _ & _ & ->).
      cbn. by rewrite lookup_insert_ne.
    + by apply placeBet_error_frame in Hp as (-> & _).
  - destruct (settle key g0 res s) as [s1 [g'|e]|] eqn:Hs; try done;
      injection Hh as <- <-.
    + apply settle_ok_store in Hs as (_ & g1 & Hg1 & _ & -> & -> & _).
      destruct (decide (g0 = gid)) as [->|Hne].
      * rewrite lookup_insert_eq. rewrite Hg in Hg1. injection Hg1 as <-.
        by eexists.
      * rewrite lookup_insert_ne by done. by eexists.
    + apply settle_error_store in Hs as ->. by eexists.
Qed.

Lemma handle_pools_frame_witness :
  let s := newStore "t101" "t102" "t103" in
  exists s' r g',
    handle (ReqSettle "letmein" 102 SelHome) s = Returns s' r /\
    games s' !! 102 = Some g' /\ Game_HomePool g' = 150.
Proof.
  intros s.
  destruct (handle (ReqSettle "letmein" 102 SelHome) s) as [s' r|] eqn:Hh;
    [|vm_compute in Hh; discriminate].
  destruct (handle_pools_frame _ s s' r 102
              (mkGame 102 "Soccer" "Alumni" "Dillon" "t102"
                 StatusPre None 150 120 30 F64.zero F64.zero F64.zero)
              Hh eq_refl) as (g' & Hg' & Hp & _).
  exists s', r, g'. split; [reflexivity|]. split; [exact Hg'|exact Hp].
Defined.

(** ** Invariants of the reachable stores *)

(** X4.  In every store the server can reach, each game is filed under
    its own id, has a result exactly when it is settled, and carries no
    odds: odds are computed for responses and never stored. *)
Theorem reachable_games_ok s id g :
  reachable s -> games s !! id = Some g -> game_ok id g.
Proof.
  intros Hreach. revert id g.
  induction Hreach as [t1 t2 t3|rq s s' r _ IH Hh]; intros id g Hg.
  - cbn in Hg. unfold game_ok.
    destruct (decide (id = 103)) as [->|?];
      [rewrite lookup_insert_eq in Hg; by simplify_eq|
       rewrite lookup_insert_ne in Hg by done].
    destruct (decide (id = 102)) as [->|?];
      [rewrite lookup_insert_eq in Hg; by simplify_eq|
       rewrite lookup_insert_ne in Hg by done].
    destruct (decide (id = 101)) as [->|?];
      [rewrite lookup_insert_eq in Hg; by simplify_eq|
       rewrite lookup_insert_ne in Hg by done].
    by rewrite lookup_empty in Hg.
  - destruct (handle_games rq s s' r id Hh)
      as [Heq|(g0 & g' & Hg0 & Hg' & Hpre & Hchg)].
    + rewrite Heq in Hg. by apply IH.
    + rewrite Hg in Hg'. injection Hg' as <-.
      destruct (IH _ _ Hg0) as (Hid & Hres & Hh0 & Ha0 & Hd0).
      destruct Hchg as [(sel & stake & Hadd)|[res ->]].
      * apply add_to_pool_fields in Hadd
          as (_ & (Hi & _) & Hst & Hr & H1 & H2 & H3).
        unfold game_ok. rewrite Hi, Hst, Hr, H1, H2, H3. done.
      * unfold game_ok. cbn. repeat split; try done.
Qed.

Lemma reachable_games_ok_witness :
  let s := fst (placeBet "now" 1 101 SelHome 100
                  (newStore "t101" "t102" "t103")) in
  exists g, games s !! 101 = Some g /\ game_ok 101 g.
Proof.
  intros s. eexists. split; [vm_compute; reflexivity|].
  apply (reachable_games_ok s).
  - apply (reachable_handle (ReqPlaceBet "now" 1 101 SelHome 100)
             (newStore "t101" "t102" "t103") s
             (RespBet (snd (placeBet "now" 1 101 SelHome 100
                              (newStore "t101" "t102" "t103"))))).
    + apply reachable_newStore.
    + vm_compute. reflexivity.
  - vm_compute. reflexivity.
Defined.

Lemma handle_games_is_Some rq s s' r gid :
  handle rq s = Returns s' r ->
  is_Some (games s !! gid) -> is_Some (games s' !! gid).
Proof.
  intros Hh Hg. destruct (handle_games rq s s' r gid Hh)
    as [->|(g0 & g' & _ & -> & _)]; done.
Qed.

(** X5.  In every store the server can reach, each recorded bet is filed
    under its own id, has a positive stake and one of the three
    selections, and names a game of the store. *)
Theorem reachable_bets_ok s id b :
  reachable s -> bets s !! id = Some b -> bet_ok s id b.
Proof.
  intros Hreach. revert id b.
  induction Hreach as [t1 t2 t3|rq s s' r _ IH Hh]; intros id b Hb.
  - cbn in Hb. by rewrite lookup_empty in Hb.
  - assert (forall b0, bet_ok s id b0 -> bet_ok s' id b0) as Hmono.
    { intros b0 (? & ? & ? & ?). repeat split; try done.
      by eapply handle_games_is_Some. }
    destruct rq as [now u g sel stake|key g res]; cbn in Hh.
    + destruct (placeBet now u g sel stake s) as [s1 [[[b1 w'] g']|e]] eqn:Hp;
        injection Hh as <- <-.
      * pose proof Hp as Hp'. apply placeBet_ok_store in Hp'
          as (w & g0 & _ & Hg & Hstake & _ & Hadd & _ & -> & ->).
        cbn in Hb. destruct (decide (nextBet s = id)) as [<-|Hne].
        -- rewrite lookup_insert_eq in Hb. injection Hb as <-.
           apply add_to_pool_fields in Hadd as (Hv & _).
           split; [done|]. split; [cbn; lia|]. split; [done|]. cbn.
           by rewrite lookup_insert_eq.
        -- rewrite lookup_insert_ne in Hb by done.
           apply Hmono, IH, Hb.
      * pose proof (placeBet_error_frame _ _ _ _ _ _ _ _ Hp)
          as (Hg & Hbs & _).
        rewrite Hbs in Hb. destruct (IH _ _ Hb) as (? & ? & ? & ?).
        repeat split; try done. by rewrite Hg.
    + destruct (settle key g res s) as [s1 r1|] eqn:Hs; [|done].
      injection Hh as <- <-.
      pose proof (settle_frame _ _ _ _ _ _ Hs) as (Hbs & _).
      rewrite Hbs in Hb. destruct (IH _ _ Hb) as (? & ? & ? & ?).
      repeat split; try done.
      apply (handle_games_is_Some (ReqSettle key g res) s s1 (RespSettle r1));
        [cbn; by rewrite Hs|done].
Qed.

Lemma reachable_bets_ok_witness :
  let s := fst (placeBet "now" 1 101 SelHome 100
                  (newStore "t101" "t102" "t103")) in
  exists b, bets s !! 1 = Some b /\ bet_ok s 1 b.
Proof.
  intros s. eexists. split; [vm_compute; reflexivity|].
  apply (reachable_bets_ok s).
  - apply (reachable_handle (ReqPlaceBet "now" 1 101 SelHome 100)
             (newStore "t101" "t102" "t103") s
             (RespBet (snd (placeBet "now" 1 101 SelHome 100
                              (newStore "t101" "t102" "t103"))))).
    + apply reachable_newStore.
    + vm_compute. reflexivity.
  - vm_compute. reflexivity.
Defined.

Lemma pay_bets_UserID gameID result winnerPool total bs ws ws' u w :
  pay_bets gameID result winnerPool total bs ws = Some ws' ->
  ws !! u = Some w ->
  exists w', ws' !! u = Some w' /\ Wallet_UserID w' = Wallet_UserID w.
Proof.
  revert ws'. induction bs as [|kb bs IH]; intros ws' Hrun Hu.
  - injection Hrun as <-. eauto.
  - unfold pay_bets in Hrun, IH. cbn in Hrun.
    destruct (foldr _ _ bs) as [ws1|]; [|done]. cbn in Hrun.
    destruct (IH ws1 eq_refl Hu) as (w1 & Hw1 & Hid).
    rewrite (pay_bet_lookup _ _ _ _ _ _ _ u Hrun), Hw1. cbn.
    eexists. split; [done|]. by case_match.
Qed.

(** X6.  The only wallet of any reachable store is the wallet of user 1,
    and the admin key is the one of the start-up: a bet for any other
    user is refused with [user_not_found], and a settlement with any
    other key with [forbidden], the store untouched. *)
Theorem reachable_single_wallet s :
  reachable s ->
  (forall u, is_Some (wallets s !! u) <-> u = 1) /\
  (forall w, wallets s !! 1 = Some w -> Wallet_UserID w = 1) /\
  (forall now u gameID sel stake,
     u <> 1 -> placeBet now u gameID sel stake s = (s, Err user_not_found)) /\
  (forall key gameID result,
     key <> "letmein" ->
     settle key gameID result s = Returns s (Err forbidden)).
Proof.
  intros Hreach.
  assert ((forall u, is_Some (wallets s !! u) <-> u = 1) /\
          (forall w, wallets s !! 1 = Some w -> Wallet_UserID w = 1) /\
          adminKey s = "letmein") as (Hdom & Hid & Hkey).
  { induction Hreach as [t1 t2 t3|rq s s' r _ (Hdom & Hid & Hkey) Hh].
    - cbn. split; [|split; [|done]].
      + intros u. destruct (decide (u = 1)) as [->|Hne].
        * by rewrite lookup_insert_eq.
        * rewrite lookup_insert_ne, lookup_empty by done.
          split; [by intros [? ?]|done].
      + intros w. rewrite lookup_insert_eq. by intros [= <-].
    - pose proof (handle_frame _ _ _ _ Hh) as [_ Hw].
      split; [|split].
      + intros u. by rewrite Hw.
      + intros w' Hw'. destruct (proj2 (Hdom 1) eq_refl) as [w Hw1].
        specialize (Hid _ Hw1).
        destruct rq as [now u g sel stake|key g res]; cbn in Hh.
        * destruct (placeBet now u g sel stake s) as [s1 [[[b1 w2] g']|e]]
            eqn:Hp; injection Hh as <- <-.
          -- apply placeBet_ok_store in Hp
               as (w0 & g0 & Hw0 & _ & _ & _ & _ & -> & _ & ->).
             cbn in Hw'. destruct (decide (u = 1)) as [->|Hne].
             ++ rewrite lookup_insert_eq in Hw'. injection Hw' as <-.
                cbn. congruence.
             ++ rewrite lookup_insert_ne in Hw' by done. congruence.
          -- destruct (decide (e = bad_selection)) as [->|Hne].
             ++ apply placeBet_bad_selection_store in Hp as (w0 & Hw0 & ->).
                cbn in Hw'. destruct (decide (u = 1)) as [->|Hne].
                ** rewrite lookup_insert_eq in Hw'. injection Hw' as <-.
                   cbn. congruence.
                ** rewrite lookup_insert_ne in Hw' by done. congruence.
             ++ rewrite (placeBet_error_store _ _ _ _ _ _ _ _ Hp Hne) in Hw'.
                congruence.
        * destruct (settle key g res s) as [s1 [g'|e]|] eqn:Hs; try done;
            injection Hh as <- <-.
          -- apply settle_ok_store in Hs
               as (_ & g0 & _ & _ & _ & _ & _ & _ & _ & Hpay).
             destruct (winner_pool res g0 =? 0); [congruence|].
             destruct (pay_bets_UserID _ _ _ _ _ _ _ _ _ Hpay Hw1)
               as (w2 & Hw2 & Hid2). congruence.
          -- apply settle_error_store in Hs as ->. congruence.
      + destruct rq as [now u g sel stake|key g res]; cbn in Hh.
        * destruct (placeBet now u g sel stake s) as [s1 [[[b1 w2] g']|e]]
            eqn:Hp; injection Hh as <- <-.
          -- apply placeBet_ok_store in Hp
               as (w0 & g0 & _ & _ & _ & _ & _ & _ & _ & ->). done.
          -- apply placeBet_error_frame in Hp as (_ & _ & _ & ->). done.
        * destruct (settle key g res s) as [s1 r1|] eqn:Hs; [|done].
          injection Hh as <- <-.
          apply settle_frame in Hs as (_ & _ & -> & _). done. }
  split; [done|]. split; [done|]. split.
  - intros now u gameID sel stake Hne. unfold placeBet.
    destruct (wallets s !! u) eqn:E; [|done].
    destruct Hne. apply Hdom. by rewrite E.
  - intros key gameID result Hne. unfold settle. rewrite Hkey.
    by destruct (String.eqb_spec key "letmein").
Qed.

Lemma reachable_single_wallet_witness :
  let s := newStore "t101" "t102" "t103" in
  placeBet "now" 2 101 SelHome 10 s = (s, Err user_not_found).
Proof.
  intros s.
  destruct (reachable_single_wallet s (reachable_newStore _ _ _))
    as (_ & _ & H & _).
  apply H. discriminate.
Defined.

(** ** Failures, balances and the payout loop *)

(** X7.  What a failed [placeBet] leaves behind: for every error but
    [bad_selection] the store it was given; for [bad_selection] that
    store with the stake, positive and covered by the balance, taken from
    the wallet.  The errors of [settle] never come out of [placeBet]. *)
Theorem placeBet_failure_effect now userID gameID sel stake s s' e :
  placeBet now userID gameID sel stake s = (s', Err e) ->
  e <> forbidden /\ e <> already_settled /\
  (e <> bad_selection -> s' = s) /\
  (e = bad_selection ->
   ~ valid_selection sel /\
   exists w,
     wallets s !! userID = Some w /\ 0 < stake <= Wallet_Balance w /\
     s' = set_wallets s
            (<[userID := set_Balance w (Int64.sub (Wallet_Balance w) stake)]>
               (wallets s))).
Proof.
  intros Hp. split; [|split; [|split]].
  - unfold placeBet in Hp. repeat (case_match; simplify_eq; try done).
  - unfold placeBet in Hp. repeat (case_match; simplify_eq; try done).
  - intros Hne. by eapply placeBet_error_store.
  - intros ->. unfold placeBet in Hp.
    destruct (wallets s !! userID) as [w|]; [|done].
    destruct (Z.leb_spec stake 0); [done|].
    destruct (Z.ltb_spec (Wallet_Balance w) stake); [done|].
    destruct (games s !! gameID) as [g|]; [|done].
    destruct (GameStatus_eqb (Game_Status g) StatusDone); [done|].
    destruct (add_to_pool sel stake g) eqn:Hadd; [done|].
    injection Hp as <-. split; [by eapply add_to_pool_None|].
    exists w. repeat split; try done; lia.
Qed.

Lemma placeBet_failure_effect_witness :
  let s := newStore "t101" "t102" "t103" in
  fst (placeBet "now" 1 101 SelHome 5000 s) = s.
Proof.
  intros s.
  destruct (placeBet "now" 1 101 SelHome 5000 s) as [s' r] eqn:Hp.
  assert (r = Err insufficient_balance) as ->.
  { vm_compute in Hp. injection Hp as _ <-. reflexivity. }
  destruct (placeBet_failure_effect _ _ _ _ _ _ _ _ Hp) as (_ & _ & H & _).
  apply H. discriminate.
Defined.

(** X8.  [placeBet] never overdraws and never credits: when every balance
    is a non-negative [int64] before a call, whatever its outcome, every
    balance is one after it, no balance has grown, and only the wallet of
    the user named can differ. *)
Theorem placeBet_balances now userID gameID sel stake s s' r :
  balances_ok s ->
  placeBet now userID gameID sel stake s = (s', r) ->
  balances_ok s' /\
  forall u w, wallets s !! u = Some w ->
    exists w', wallets s' !! u = Some w' /\
      Wallet_Balance w' <= Wallet_Balance w /\ (u <> userID -> w' = w).
Proof.
  intros Hok Hp.
  assert (forall w, wallets s !! userID = Some w ->
            0 < stake <= Wallet_Balance w ->
            Int64.sub (Wallet_Balance w) stake = Wallet_Balance w - stake)
    as Hsub.
  { intros w Hw Hst. specialize (Hok _ _ Hw). apply wrap_in_range.
    unfold Int64.in_range, Int64.min_int, Int64.max_int in *. lia. }
  assert (s' = s \/
          exists w, wallets s !! userID = Some w /\
            0 < stake <= Wallet_Balance w /\
            wallets s' =
              <[userID := set_Balance w (Wallet_Balance w - stake)]>
                (wallets s)) as [->|(w0 & Hw0 & Hst & Hws)].
  { destruct r as [[[b w'] g']|e].
    - right. apply placeBet_ok_store in Hp
        as (w & g & Hw & _ & Hst & _ & _ & -> & _ & ->).
      exists w. cbn. by rewrite (Hsub _ Hw Hst).
    - destruct (decide (e = bad_selection)) as [->|He];
        [|left; by eapply placeBet_error_store].
      right. unfold placeBet in Hp.
      destruct (wallets s !! userID) as [w|] eqn:Hw; [|done].
      destruct (Z.leb_spec stake 0); [done|].
      destruct (Z.ltb_spec (Wallet_Balance w) stake); [done|].
      destruct (games s !! gameID) as [g|]; [|done].
      destruct (GameStatus_eqb (Game_Status g) StatusDone); [done|].
      destruct (add_to_pool sel stake g); [done|].
      injection Hp as <-. exists w. cbn.
      rewrite (Hsub w) by (done || lia). repeat split; try done; lia. }
  - split; [done|]. intros u w Hw. exists w. split; [done|]. split; [lia|done].
  - pose proof (Hok _ _ Hw0) as Hb0. split.
    + intros u w. rewrite Hws. destruct (decide (userID = u)) as [->|Hne].
      * rewrite lookup_insert_eq. intros [= <-]. cbn. lia.
      * rewrite lookup_insert_ne by done. apply Hok.
    + intros u w Hw. rewrite Hws.
      destruct (decide (userID = u)) as [->|Hne].
      * rewrite lookup_insert_eq. eexists. split; [done|].
        assert (w = w0) as -> by congruence. cbn. split; [lia|done].
      * rewrite lookup_insert_ne by done. exists w.
        split; [done|]. split; [lia|done].
Qed.

Lemma placeBet_balances_witness :
  let s := newStore "t101" "t102" "t103" in
  balances_ok (fst (placeBet "now" 1 101 "tie" 1000 s)).
Proof.
  intros s.
  destruct (placeBet "now" 1 101 "tie" 1000 s) as [s' r] eqn:Hp.
  cbn [fst].
  apply (placeBet_balances "now" 1 101 "tie" 1000 s s' r); [|exact Hp].
  intros u w Hw. cbn in Hw. destruct (decide (u = 1)) as [->|Hne].
  - rewrite lookup_insert_eq in Hw. injection Hw as <-. cbn.
    unfold Int64.max_int. lia.
  - rewrite lookup_insert_ne, lookup_empty in Hw by done. discriminate.
Defined.

Lemma pay_bets_None_inv gameID result winnerPool total bs ws :
  pay_bets gameID result winnerPool total bs ws = None ->
  exists kb, kb ∈ bs /\ wins gameID result (snd kb) = true /\
    ws !! Bet_UserID (snd kb) = None.
Proof.
  induction bs as [|kb bs IH]; [done|]. unfold pay_bets in *. cbn.
  destruct (foldr _ _ bs) as [ws1|] eqn:Hrun.
  - cbn. unfold pay_bet. destruct (wins gameID result kb.2) eqn:Hwin; [|done].
    destruct (ws1 !! Bet_UserID kb.2) eqn:E; [done|]. intros _.
    exists kb. split; [by left|]. split; [done|].
    destruct (ws !! Bet_UserID kb.2) eqn:E0; [|done].
    assert (is_Some (ws1 !! Bet_UserID kb.2)) as [? ?]; [|congruence].
    apply (pay_bets_dom gameID result winnerPool total bs ws); [done|].
    by rewrite E0.
  - intros _. destruct (IH eq_refl) as (kb' & Hin & ?).
    exists kb'. split; [by right|done].
Qed.

(** X9.  When [settle] panics: exactly when the key is the admin key, the
    game exists and is not settled, the pool of the result is not 0, and
    some recorded bet on the game with the winning selection names a user
    without wallet. *)
Theorem settle_panics_iff key gameID result s :
  settle key gameID result s = Panics <->
  key = adminKey s /\
  exists g,
    games s !! gameID = Some g /\ Game_Status g = StatusPre /\
    winner_pool result g <> 0 /\
    exists id b,
      bets s !! id = Some b /\ wins gameID result b = true /\
      wallets s !! Bet_UserID b = None.
Proof.
  unfold settle. split.
  - destruct (String.eqb_spec key (adminKey s)) as [->|]; [|done]. cbn.
    destruct (games s !! gameID) as [g|]; [|done].
    destruct (Game_Status g) eqn:Hst; [|done]. cbn.
    rewrite winner_pool_set_Settled, pool_total_set_Settled.
    destruct (Z.eqb_spec (winner_pool result g) 0) as [|Hw]; [done|].
    destruct (pay_bets _ _ _ _ _ _) eqn:Hpay; [done|]. intros _.
    split; [done|]. exists g. repeat split; try done.
    destruct (pay_bets_None_inv _ _ _ _ _ _ Hpay)
      as ([id b] & Hin & Hwin & Hnone).
    apply elem_of_map_to_list in Hin. eauto.
  - intros (-> & g & -> & -> & Hw & id & b & Hb & Hwin & Hnone).
    rewrite String.eqb_refl. cbn.
    rewrite winner_pool_set_Settled, pool_total_set_Settled.
    destruct (Z.eqb_spec (winner_pool result g) 0) as [|_]; [done|].
    erewrite pay_bets_panics; [done| |done..].
    by apply elem_of_map_to_list.
Qed.

(** X10.  The order in which the payout loop meets the bets does not
    matter: the wallets a paying settlement leaves are the wallets the
    loop ends with over any enumeration of the bet map, whatever order
    the map iteration of Go yields. *)
Theorem payout_loop_any_order key gameID result s s' g g'
    (bs : list (Z * Bet)) :
  games s !! gameID = Some g ->
  winner_pool result g <> 0 ->
  settle key gameID result s = Returns s' (Ok g') ->
  bs ≡ₚ map_to_list (bets s) ->
  pay_bets gameID result (winner_pool result g) (pool_total g) bs (wallets s)
  = Some (wallets s').
Proof.
  intros Hg Hw Hs Hperm.
  apply settle_ok_store in Hs as (_ & g0 & Hg0 & _ & _ & _ & _ & _ & _ & Hpay).
  rewrite Hg in Hg0. injection Hg0 as <-.
  destruct (Z.eqb_spec (winner_pool result g) 0); [done|].
  by rewrite (pay_bets_Permutation _ _ _ _ _ _ _ Hperm).
Qed.

Lemma payout_loop_any_order_witness :
  let b1 := mkBet 1 1 101 SelHome 7 "now1" in
  let b2 := mkBet 2 1 101 SelHome 9 "now2" in
  let s := mkStore (games (newStore "t101" "t102" "t103"))
             (<[2 := b2]> (<[1 := b1]> ∅))
             (<[1 := mkWallet 1 984]> ∅) 3 "letmein" in
  exists s' g',
    settle "letmein" 101 SelHome s = Returns s' (Ok g') /\
    pay_bets 101 SelHome 100 200 [(1, b1); (2, b2)] (wallets s)
    = Some (wallets s') /\
    pay_bets 101 SelHome 100 200 [(2, b2); (1, b1)] (wallets s)
    = Some (wallets s').
Proof.
  intros b1 b2 s.
  destruct (settle "letmein" 101 SelHome s) as [s' [g'|e]|] eqn:Hs;
    try (vm_compute in Hs; discriminate).
  exists s', g'. split; [reflexivity|].
  pose proof (payout_loop_any_order "letmein" 101 SelHome s s'
                (mkGame 101 "Flag Football" "Welsh Fam Whirls"
                   "Lewis Chicks" "t101" StatusPre None 100 100 0
                   F64.zero F64.zero F64.zero) g') as H.
  split.
  - apply H; [reflexivity|vm_compute; discriminate|exact Hs|].
    vm_compute. apply Permutation_swap.
  - apply H; [reflexivity|vm_compute; discriminate|exact Hs|].
    vm_compute. reflexivity.
Defined.

(** ** Reading games *)

(** X11.  [listGames] and [getGame] agree: the list holds one entry per
    game of the store, and a game is in the list exactly when [getGame]
    returns it for some id; [getGame] finds nothing exactly for the ids
    that are not in the store. *)
Theorem listGames_getGame s :
  length (listGames s) = size (games s) /\
  (forall g, g ∈ listGames s <-> exists id, getGame id s = Some g) /\
  (forall id, getGame id s = None <-> games s !! id = None).
Proof.
  unfold listGames, getGame. split; [|split].
  - by rewrite length_fmap, length_map_to_list.
  - intros g. rewrite list_elem_of_fmap. split.
    + intros ([id g0] & -> & Hin). apply elem_of_map_to_list in Hin.
      exists id. by rewrite Hin.
    + intros (id & Hid). destruct (games s !! id) as [g0|] eqn:E; [|done].
      injection Hid as <-. exists (id, g0). split; [done|].
      by apply elem_of_map_to_list.
  - intros id. by destruct (games s !! id).
Qed.

Lemma settle_panics_iff_witness :
  let s := mkStore (games (newStore "t101" "t102" "t103"))
             (<[1 := mkBet 1 7 101 SelHome 5 "now"]> ∅)
             (<[1 := mkWallet 1 1000]> ∅) 2 "letmein" in
  settle "letmein" 101 SelHome s = Panics.
Proof.
  intros s. apply (proj2 (settle_panics_iff "letmein" 101 SelHome s)).
  split; [reflexivity|].
  exists (mkGame 101 "Flag Football" "Welsh Fam Whirls" "Lewis Chicks"
            "t101" StatusPre None 100 100 0 F64.zero F64.zero F64.zero).
  split; [reflexivity|]. split; [reflexivity|].
  split; [vm_compute; discriminate|].
  exists 1, (mkBet 1 7 101 SelHome 5 "now").
  split; [reflexivity|]. split; reflexivity.
Defined.

(** ** Accuracy of the odds *)

Section OddsAccuracy.

Local Open Scope Q_scope.

Lemma odds_close h t :
  (0 <= h <= Int64.max_int)%Z -> (0 < t <= Int64.max_int)%Z ->
  let o := F64.value (F64.div (F64.of_int64 h) (F64.of_int64 t)) in
  inject_Z h / inject_Z t * (1 - odds_tolerance) <= o /\
  o <= inject_Z h / inject_Z t * (1 + odds_tolerance).
Proof.
  intros Hh Ht o.
  destruct (odds_rel h t Hh Ht) as (_ & Ho & H1 & H2). fold o in Ho, H1, H2.
  assert (0 < inject_Z t) as Htq.
  { change 0 with (inject_Z 0). rewrite <- Zlt_Qlt. lia. }
  assert (0 <= inject_Z h) as Hhq.
  { change 0 with (inject_Z 0). rewrite <- Zle_Qle. lia. }
  set (q := inject_Z h / inject_Z t).
  assert (inject_Z h == q * inject_Z t) as Hq by (unfold q; field; lra).
  assert (0 <= q) as Hq0.
  { unfold q. apply Qle_shift_div_l; [done|]. by rewrite Qmult_0_l. }
  rewrite Hq in H1, H2.
  assert ((q * ((1 - rel_ulp) * (1 - rel_ulp))) * inject_Z t
          <= (o * (1 + rel_ulp)) * inject_Z t) as H1'.
  { unfold rel_ulp in *. nra. }
  assert ((o * (1 - rel_ulp)) * inject_Z t
          <= (q * ((1 + rel_ulp) * (1 + rel_ulp))) * inject_Z t) as H2'.
  { unfold rel_ulp in *. nra. }
  apply Qmult_lt_0_le_reg_r in H1', H2'; try done.
  unfold rel_ulp, odds_tolerance in *. split; lra.
Qed.

(** X12.  How close the odds are to the exact quotients: for pools that
    are not negative and whose sum is positive and fits an [int64], each
    of the three odds is a non-negative number within a relative distance
    of [2^-50] of its pool divided by the total. *)
Theorem addOdds_accuracy g :
  (0 <= Game_HomePool g)%Z -> (0 <= Game_AwayPool g)%Z ->
  (0 <= Game_DrawPool g)%Z ->
  (0 < Game_HomePool g + Game_AwayPool g + Game_DrawPool g
     <= Int64.max_int)%Z ->
  let total :=
    inject_Z (Game_HomePool g + Game_AwayPool g + Game_DrawPool g) in
  let close (pool : Z) (odds : spec_float) :=
    0 <= F64.value odds /\
    inject_Z pool / total * (1 - odds_tolerance) <= F64.value odds /\
    F64.value odds <= inject_Z pool / total * (1 + odds_tolerance) in
  close (Game_HomePool g) (Game_HomeOdds (addOdds g)) /\
  close (Game_AwayPool g) (Game_AwayOdds (addOdds g)) /\
  close (Game_DrawPool g) (Game_DrawOdds (addOdds g)).
Proof.
  intros Hh Ha Hd Ht total close.
  set (t := (Game_HomePool g + Game_AwayPool g + Game_DrawPool g)%Z) in *.
  assert (Int64.add (Int64.add (Game_HomePool g) (Game_AwayPool g))
            (Game_DrawPool g) = t) as Htot.
  { rewrite add_assoc_wrap, Z.add_assoc. apply wrap_in_range.
    unfold Int64.in_range, Int64.min_int, t in *. lia. }
  unfold addOdds. rewrite Htot, of_int64_positive_leb by done.
  cbn [set_Odds Game_HomeOdds Game_AwayOdds Game_DrawOdds].
  unfold close, total.
  destruct (odds_rel (Game_HomePool g) t) as (_ & ? & _); [lia|done|].
  destruct (odds_rel (Game_AwayPool g) t) as (_ & ? & _); [lia|done|].
  destruct (odds_rel (Game_DrawPool g) t) as (_ & ? & _); [lia|done|].
  destruct (odds_close (Game_HomePool g) t) as [? ?]; [lia|done|].
  destruct (odds_close (Game_AwayPool g) t) as [? ?]; [lia|done|].
  destruct (odds_close (Game_DrawPool g) t) as [? ?]; [lia|done|].
  done.
Qed.

Lemma addOdds_accuracy_witness :
  let g := mkGame 102 "Soccer" "Alumni" "Dillon" "t102" StatusPre None
             150 120 30 F64.zero F64.zero F64.zero in
  (1 # 2) * (1 - odds_tolerance) <= F64.value (Game_HomeOdds (addOdds g)).
Proof.
  intros g.
  destruct (addOdds_accuracy g) as ((_ & H & _) & _).
  - vm_compute. discriminate.
  - vm_compute. discriminate.
  - vm_compute. discriminate.
  - vm_compute. split; [reflexivity|discriminate].
  - exact H.
Defined.

End OddsAccuracy.

(** * Properties of the HTTP layer *)

(** ** Parsing the path *)

Lemma digit_of_range c d : digit_of c = Some d -> 0 <= d <= 9.
Proof.
  unfold digit_of. repeat case_match; [|done]. intros [= <-]. lia.
Qed.

Lemma parse_digits_nonneg str acc n :
  0 <= acc -> parse_digits str acc = Some n -> 0 <= n.
Proof.
  revert acc. induction str as [|c str IH]; intros acc Hacc; cbn.
  - by intros [= <-].
  - destruct (digit_of c) as [d|] eqn:Hd; [|done].
    apply digit_of_range in Hd. apply IH. lia.
Qed.

Lemma parse_digits_no_slash str acc n :
  parse_digits str acc = Some n -> no_slash str = true.
Proof.
  revert acc. induction str as [|c str IH]; intros acc; cbn; [done|].
  destruct (digit_of c) as [d|] eqn:Hd; [|done]. intros H.
  rewrite (IH _ H), andb_true_r.
  destruct (Ascii.eqb_spec c "/"%char) as [->|]; [|done]. discriminate Hd.
Qed.

Lemma ParseInt_Some_parts str z :
  ParseInt str = Some z -> str <> "" /\ no_slash str = true.
Proof.
  unfold ParseInt. destruct str as [|c rest]; [done|].
  set (neg := Ascii.eqb c "-"%char).
  set (digits := if Ascii.eqb c "+"%char || neg then rest
                 else String c rest).
  intros H. split; [done|].
  assert (exists un, parse_digits digits 0 = Some un) as (un & Hd).
  { destruct digits; [done|]. destruct (parse_digits _ 0); [eauto|done]. }
  pose proof (parse_digits_no_slash _ _ _ Hd) as Hns.
  unfold digits, neg in Hns. cbn.
  destruct (Ascii.eqb_spec c "+"%char) as [->|]; [done|].
  destruct (Ascii.eqb_spec c "-"%char) as [->|]; [done|].
  exact Hns.
Qed.

(** X13.  An id the handlers accept from the path is an [int64], and the
    segment it is read from is not empty and holds no slash: the ledger
    is never called with an id outside the [int64] range. *)
Theorem ParseInt_Some str z :
  ParseInt str = Some z ->
  Int64.in_range z /\ str <> "" /\ no_slash str = true.
Proof.
  unfold ParseInt. destruct str as [|c rest]; [done|].
  set (neg := Ascii.eqb c "-"%char).
  set (digits := if Ascii.eqb c "+"%char || neg then rest
                 else String c rest).
  intros H.
  assert (exists un, parse_digits digits 0 = Some un /\
            (if neg then (if 2 ^ 63 <? un then None else Some (- un))
             else (if 2 ^ 63 <=? un then None else Some un)) = Some z)
    as (un & Hd & Hz).
  { destruct digits; [done|]. destruct (parse_digits _ 0); [eauto|done]. }
  pose proof (parse_digits_nonneg digits 0 un ltac:(lia) Hd) as Hun.
  pose proof (parse_digits_no_slash _ _ _ Hd) as Hns.
  split; [|split; [done|]].
  - unfold Int64.in_range, Int64.min_int, Int64.max_int.
    destruct neg.
    + destruct (Z.ltb_spec (2 ^ 63) un); [done|]. injection Hz as <-. lia.
    + destruct (Z.leb_spec (2 ^ 63) un); [done|]. injection Hz as <-. lia.
  - unfold digits, neg in Hns. cbn.
    destruct (Ascii.eqb_spec c "+"%char) as [->|]; [done|].
    destruct (Ascii.eqb_spec c "-"%char) as [->|]; [done|].
    exact Hns.
Qed.

Lemma ParseInt_Some_witness :
  Int64.in_range (-9223372036854775808) /\
  ParseInt "9223372036854775808" = None.
Proof.
  split; [|reflexivity].
  apply (ParseInt_Some "-9223372036854775808" (-9223372036854775808)).
  reflexivity.
Defined.

Lemma SplitSlash_no_slash seg : no_slash seg = true -> SplitSlash seg = [seg].
Proof.
  induction seg as [|c seg IH]; cbn; [done|].
  destruct (Ascii.eqb c "/"%char); [done|]. cbn. intros H.
  by rewrite (IH H).
Qed.

Lemma SplitSlash_app seg rest :
  no_slash seg = true ->
  SplitSlash (seg ++ String "/"%char rest) = seg :: SplitSlash rest.
Proof.
  induction seg as [|c seg IH]; [done|]. simpl.
  destruct (Ascii.eqb c "/"%char); [done|]. simpl. intros H.
  by rewrite (IH H).
Qed.

Lemma HasPrefix_app p x : HasPrefix (p ++ x) p = true.
Proof.
  unfold HasPrefix. induction p as [|a p IH]; [by destruct x|].
  change (String a p ++ x) with (String a (p ++ x)). simpl.
  by destruct (ascii_dec a a).
Qed.

Lemma drop_bytes_app p x : drop_bytes (String.length p) (p ++ x) = x.
Proof.
  induction p as [|a p IH]; [done|].
  change (String a p ++ x) with (String a (p ++ x)). by simpl.
Qed.

Lemma TrimPrefix_app p x : TrimPrefix (p ++ x) p = x.
Proof. unfold TrimPrefix. by rewrite HasPrefix_app, drop_bytes_app. Qed.

(** The path of [handleGameByID] as [Handler] builds it, for a [path]
    parameter [/games/<rest>]. *)
Lemma Handler_games_path rq s rest :
  rq_path rq = "/games/" ++ rest ->
  rq_Method rq <> "OPTIONS" ->
  (rq_Method rq = "GET" -> rest <> "") ->
  Handler rq s =
  match handleGameByID rq ("/api/games/" ++ rest) s with
  | Returns s' r =>
      Returns s'
        (mkResponse (if String.eqb (rq_Origin rq) "" then "*"
                     else rq_Origin rq) r)
  | Panics => Panics
  end.
Proof.
  intros Hp Hopt Hget. unfold Handler, dispatch. rewrite Hp.
  destruct (String.eqb_spec (rq_Method rq) "OPTIONS"); [done|].
  change ("/games/" ++ rest) with ("/" ++ "games/" ++ rest).
  rewrite TrimPrefix_app, HasPrefix_app, TrimPrefix_app.
  destruct (String.eqb_spec (rq_Method rq) "GET") as [Hm|]; [|done].
  specialize (Hget Hm). destruct rest as [|c rest']; [done|].
  destruct (String.eqb_spec ("games/" ++ String c rest') "games");
    [done|].
  destruct (String.eqb_spec ("games/" ++ String c rest') "games/");
    [done|].
  done.
Qed.

Lemma handleGameByID_parts rq rest s :
  handleGameByID rq ("/api/games/" ++ rest) s =
  match SplitSlash rest with
  | [] => Returns s NotFound
  | part0 :: others =>
    if String.eqb part0 "" then Returns s NotFound
    else
      match ParseInt part0 with
      | None => Returns s (HttpError "bad_id" 400)
      | Some id =>
        if (length (SplitSlash rest) =? 1)%nat
           && String.eqb (rq_Method rq) "GET" then
          match getGame id s with
          | None => Returns s NotFound
          | Some g => Returns s (WriteJSON 200 (JGame g))
          end
        else if (length (SplitSlash rest) =? 2)%nat
                && String.eqb (nth 1 (SplitSlash rest) "") "bets"
                && String.eqb (rq_Method rq) "POST" then
          match rq_bet rq with
          | None => Returns s (HttpError "bad_json" 400)
          | Some body =>
            match placeBet (rq_now rq) (Body_UserID body) id
                    (Body_Selection body) (Body_Stake body) s with
            | (s', Err e) => Returns s' (HttpError (error_message e) 400)
            | (s', Ok (b, wlt, g)) =>
                Returns s' (WriteJSON 200 (JBet b wlt (addOdds g)))
            end
          end
        else if (length (SplitSlash rest) =? 2)%nat
                && String.eqb (nth 1 (SplitSlash rest) "") "settle"
                && String.eqb (rq_Method rq) "POST" then
          match rq_settle rq with
          | None => Returns s (HttpError "bad_json" 400)
          | Some result =>
            match settle (rq_AdminKey rq) id result s with
            | Returns s' (Err e) =>
                Returns s' (HttpError (error_message e) 403)
            | Returns s' (Ok g) =>
                Returns s' (WriteJSON 200 (JGame (addOdds g)))
            | Panics => Panics
            end
          end
        else Returns s (HttpError "not_found" 404)
      end
  end.
Proof. unfold handleGameByID. by rewrite TrimPrefix_app. Qed.

(** ** Routes *)



(** X15.  The settle route end to end: a POST to [/games/<id>/settle]
    whose body decodes runs [settle] with the key of the [X-Admin-Key]
    header; success is answered with 200 and the game with fresh odds,
    and every error (a wrong key, but also an unknown game and a settled
    game) with 403 and its message. *)
Theorem Handler_settle_route rq s seg id result :
  rq_Method rq = "POST" ->
  rq_path rq = "/games/" ++ seg ++ "/settle" ->
  ParseInt seg = Some id ->
  rq_settle rq = Some result ->
  exists origin,
    Handler rq s =
    match settle (rq_AdminKey rq) id result s with
    | Returns s' (Ok g) =>
        Returns s' (mkResponse origin (WriteJSON 200 (JGame (addOdds g))))
    | Returns s' (Err e) =>
        Returns s' (mkResponse origin (HttpError (error_message e) 403))
    | Panics => Panics
    end.
Proof.
  intros Hm Hp Hid Hb. eexists.
  destruct (ParseInt_Some_parts seg id Hid) as (Hne & Hns).
  rewrite (Handler_games_path rq s (seg ++ "/settle")), handleGameByID_parts;
    [|done|by rewrite Hm|by rewrite Hm].
  rewrite (SplitSlash_app seg "settle" Hns). cbn.
  destruct (String.eqb_spec seg ""); [done|].
  rewrite Hid, Hm, Hb. cbn.
  destruct (settle _ _ _ _) as [s' [g|e]|]; reflexivity.
Qed.

Lemma Handler_settle_route_witness :
  let rq := mkRequest "POST" "/games/999/settle" "" "letmein" "now"
              None (Some SelHome) in
  let s := newStore "t101" "t102" "t103" in
  exists origin,
    Handler rq s = Returns s (mkResponse origin (HttpError "game_not_found" 403)).
Proof.
  intros rq s.
  destruct (Handler_settle_route rq s "999" 999 SelHome
              eq_refl eq_refl eq_refl eq_refl) as (origin & H).
  exists origin. rewrite H. vm_compute. reflexivity.
Defined.

(** X16.  Reading one game: a GET of [/games/<id>] is answered with 200
    and the game with fresh odds when the store has a game of that id and
    with 404 when it has none; a segment that is no decimal [int64] is
    answered with 400 [bad_id], whatever the method.  The store is
    untouched. *)
Theorem Handler_game_route rq s seg :
  rq_Method rq <> "OPTIONS" ->
  rq_path rq = "/games/" ++ seg ->
  seg <> "" -> no_slash seg = true ->
  exists origin,
    match ParseInt seg with
    | None =>
        Handler rq s = Returns s (mkResponse origin (HttpError "bad_id" 400))
    | Some id =>
        rq_Method rq = "GET" ->
        Handler rq s =
        Returns s (mkResponse origin
                     match games s !! id with
                     | Some g => WriteJSON 200 (JGame (addOdds g))
                     | None => NotFound
                     end)
    end.
Proof.
  intros Hopt Hp Hne Hns. eexists.
  rewrite (Handler_games_path rq s seg), handleGameByID_parts by done.
  rewrite (SplitSlash_no_slash seg Hns).
  destruct (String.eqb_spec seg ""); [done|].
  destruct (ParseInt seg) as [id|]; [|done].
  intros ->. cbn. unfold getGame. by destruct (games s !! id).
Qed.

Lemma Handler_game_route_witness :
  let rq := mkRequest "GET" "/games/7" "" "" "now" None None in
  let s := newStore "t101" "t102" "t103" in
  exists origin, Handler rq s = Returns s (mkResponse origin NotFound).
Proof.
  intros rq s.
  destruct (Handler_game_route rq s "7") as (origin & H).
  - discriminate.
  - reflexivity.
  - discriminate.
  - reflexivity.
  - exists origin. apply (H eq_refl).
Defined.

(** ** Every request *)

(** What [handleGameByID] does to the store and which status it
    answers. *)
Lemma handleGameByID_step rq urlPath s :
  match handleGameByID rq urlPath s with
  | Returns s' r =>
      (s' = s \/ exists lrq lr, handle lrq s = Returns s' lr) /\
      (rq_Method rq <> "POST" -> s' = s) /\
      (status_code r = 200 \/ status_code r = 400 \/
       status_code r = 403 \/ status_code r = 404)
  | Panics =>
      rq_Method rq = "POST" /\
      exists key id result, settle key id result s = Panics
  end.
Proof.
  unfold handleGameByID.
  destruct (SplitSlash _) as [|part0 others] eqn:Hparts; [cbn; tauto|].
  destruct (String.eqb part0 ""); [cbn; tauto|].
  destruct (ParseInt part0) as [id|]; [|cbn; tauto].
  destruct (_ && String.eqb (rq_Method rq) "GET").
  { destruct (getGame id s); cbn; tauto. }
  destruct (String.eqb_spec (rq_Method rq) "POST") as [Hm|Hm];
    [|rewrite !andb_false_r; cbn; tauto].
  rewrite !andb_true_r.
  destruct (_ && String.eqb _ "bets").
  { destruct (rq_bet rq) as [body|]; [|cbn; tauto].
    destruct (placeBet _ _ _ _ _ _) as [s' [[[b w] g]|e]] eqn:Hp.
    - cbn. split; [|tauto]. right.
      exists (ReqPlaceBet (rq_now rq) (Body_UserID body) id
                (Body_Selection body) (Body_Stake body)).
      eexists. cbn. by rewrite Hp.
    - cbn. split; [|tauto]. right.
      exists (ReqPlaceBet (rq_now rq) (Body_UserID body) id
                (Body_Selection body) (Body_Stake body)).
      eexists. cbn. by rewrite Hp. }
  destruct (_ && String.eqb _ "settle"); [|cbn; tauto].
  destruct (rq_settle rq) as [result|]; [|cbn; tauto].
  destruct (settle _ _ _ _) as [s' [g|e]|] eqn:Hs.
  - cbn. split; [|tauto]. right.
    exists (ReqSettle (rq_AdminKey rq) id result). eexists. cbn.
    by rewrite Hs.
  - cbn. split; [|tauto]. right.
    exists (ReqSettle (rq_AdminKey rq) id result). eexists. cbn.
    by rewrite Hs.
  - eauto.
Qed.

Lemma Handler_step rq s :
  match Handler rq s with
  | Returns s' resp =>
      (s' = s \/ exists lrq lr, handle lrq s = Returns s' lr) /\
      (rq_Method rq <> "POST" -> s' = s) /\
      (status_code (rs_reply resp) = 200 \/
       status_code (rs_reply resp) = 204 \/
       status_code (rs_reply resp) = 400 \/
       status_code (rs_reply resp) = 403 \/
       status_code (rs_reply resp) = 404)
  | Panics =>
      rq_Method rq = "POST" /\
      exists key id result, settle key id result s = Panics
  end.
Proof.
  unfold Handler, dispatch.
  destruct (String.eqb (rq_Method rq) "OPTIONS"); [cbn; tauto|].
  destruct (String.eqb_spec (rq_Method rq) "GET") as [Hm|Hm]; cbn.
  - destruct (_ || _).
    + unfold handleGames. rewrite Hm. cbn. tauto.
    + destruct (HasPrefix _ _); [|cbn; tauto].
      pose proof (handleGameByID_step rq
        ("/api/games/" ++ TrimPrefix (TrimPrefix (rq_path rq) "/") "games/")
        s) as H.
      destruct (handleGameByID _ _ _); [cbn; tauto|done].
  - destruct (HasPrefix _ _); [|cbn; tauto].
    pose proof (handleGameByID_step rq
      ("/api/games/" ++ TrimPrefix (TrimPrefix (rq_path rq) "/") "games/")
      s) as H.
    destruct (handleGameByID _ _ _); [cbn; tauto|done].
Qed.

(** X17.  The statuses [Handler] answers with are 200, 204, 400, 403 and
    404 and no other: the 405 of [handleGames] is never sent, because the
    dispatch calls [handleGames] for GET requests only. *)
Theorem Handler_status_codes rq s s' resp :
  Handler rq s = Returns s' resp ->
  status_code (rs_reply resp) = 200 \/ status_code (rs_reply resp) = 204 \/
  status_code (rs_reply resp) = 400 \/ status_code (rs_reply resp) = 403 \/
  status_code (rs_reply resp) = 404.
Proof.
  intros H. pose proof (Handler_step rq s) as Hs. rewrite H in Hs. tauto.
Qed.

Lemma Handler_status_codes_witness :
  let rq := mkRequest "DELETE" "/games" "" "" "now" None None in
  exists s' resp,
    Handler rq (newStore "t101" "t102" "t103") = Returns s' resp /\
    status_code (rs_reply resp) <> 405.
Proof.
  intros rq.
  destruct (Handler rq (newStore "t101" "t102" "t103")) as [s' resp|] eqn:H;
    [|vm_compute in H; discriminate].
  exists s', resp. split; [reflexivity|].
  destruct (Handler_status_codes rq _ s' resp H) as [E|[E|[E|[E|E]]]];
    rewrite E; discriminate.
Defined.

(** X18.  Only a POST can change the store: a request of any other
    method, whatever its path, headers and body, is answered and leaves
    the store as it was. *)
Theorem Handler_only_POST_writes rq s :
  rq_Method rq <> "POST" ->
  exists resp, Handler rq s = Returns s resp.
Proof.
  intros Hm. pose proof (Handler_step rq s) as Hs.
  destruct (Handler rq s) as [s' resp|].
  - destruct Hs as (_ & Hsame & _). rewrite (Hsame Hm). eauto.
  - by destruct Hs as [? _].
Qed.

Lemma Handler_only_POST_writes_witness :
  let rq := mkRequest "PUT" "/games/101/settle" "" "letmein" "now"
              None (Some SelHome) in
  let s := newStore "t101" "t102" "t103" in
  exists resp, Handler rq s = Returns s resp.
Proof.
  intros rq s. apply (Handler_only_POST_writes rq s). discriminate.
Defined.

(** X19.  The server cannot be brought down or off its invariants over
    HTTP: in a store it can reach, every request is answered (no handler
    panics) and leaves a store it can reach. *)
Theorem Handler_reachable rq s :
  reachable s ->
  exists s' resp, Handler rq s = Returns s' resp /\ reachable s'.
Proof.
  intros Hreach. pose proof (Handler_step rq s) as Hs.
  destruct (Handler rq s) as [s' resp|].
  - exists s', resp. split; [done|].
    destruct Hs as ([->|(lrq & lr & Hh)] & _); [done|].
    by eapply reachable_handle.
  - destruct Hs as (_ & key & id & result & Hp).
    by apply settle_no_panic in Hp; [|apply reachable_invariant].
Qed.

Lemma Handler_reachable_witness :
  let rq := mkRequest "POST" "/games/101/settle" "" "letmein" "now"
              None (Some SelHome) in
  exists s' resp,
    Handler rq (newStore "t101" "t102" "t103") = Returns s' resp /\
    reachable s'.
Proof.
  intros rq.
  apply (Handler_reachable rq (newStore "t101" "t102" "t103")).
  apply reachable_newStore.
Defined.

(** ** Reading back what was written *)

(** X20.  What a successful [placeBet] returns is what the store then
    holds: the bet is filed under its id with the fields of the call, the
    wallet and the game returned are the ones stored for the user and the
    game, and a [getGame] that follows returns that game with its
    odds. *)
Theorem placeBet_read_back now userID gameID sel stake s s' b w g :
  placeBet now userID gameID sel stake s = (s', Ok (b, w, g)) ->
  bets s' !! Bet_ID b = Some b /\
  b = mkBet (nextBet s) userID gameID sel stake now /\
  wallets s' !! userID = Some w /\
  games s' !! gameID = Some g /\
  getGame gameID s' = Some (addOdds g).
Proof.
  intros Hp. apply placeBet_ok_store in Hp
    as (w0 & g0 & _ & _ & _ & _ & _ & -> & -> & ->).
  unfold getGame. cbn. by rewrite !lookup_insert_eq.
Qed.

Lemma placeBet_read_back_witness :
  let s := newStore "t101" "t102" "t103" in
  exists s' b w g,
    placeBet "now" 1 103 SelDraw 30 s = (s', Ok (b, w, g)) /\
    getGame 103 s' = Some (addOdds g) /\ Game_DrawPool g = 60.
Proof.
  intros s.
  destruct (placeBet "now" 1 103 SelDraw 30 s) as [s' [[[b w] g]|e]] eqn:Hp;
    [|vm_compute in Hp; discriminate].
  exists s', b, w, g. split; [reflexivity|].
  destruct (placeBet_read_back _ _ _ _ _ _ _ _ _ _ Hp) as (_ & _ & _ & _ & H).
  split; [exact H|].
  vm_compute in Hp. injection Hp as _ _ _ <-. reflexivity.
Defined.
